(** * github_flavored_markdown: heading anchors, code-block wrappers,
      diff-hunk segmentation and HTML escaping

    A shallow embedding of [main.go].  Go's [[]byte] and [string] are both
    byte sequences and are modelled by [list byte]; Go's [int] is modelled by
    [Z] (every integer below is an index or an offset bounded by the length of
    a buffer plus one, so the 64-bit wrap-around is never reached and is not
    written out).  An [io.Writer] is modelled by the bytes written so far. *)

From Stdlib Require Import Strings.Byte Strings.String Numbers.DecimalString.
From Stdlib Require Import ZArith List Lia Bool.
Import ListNotations.

Local Open Scope Z_scope.

(** ** Byte buffers *)

Definition bytes := list byte.

(** A Go string or byte-slice literal. *)
Definition lit (s : string) : bytes := list_byte_of_string s.

(** A literal that contains double quotes, written here with an apostrophe
    in the place of each double quote (no literal of [main.go] contains an
    apostrophe). *)
Definition litq (s : string) : bytes :=
  map (fun c => if Byte.eqb c x27 then x22 else c) (lit s).

Definition len {A} (l : list A) : Z := Z.of_nat (List.length l).

(** [s[lo:hi]] for [0 <= lo <= hi <= len s]. *)
Definition slice {A} (s : list A) (lo hi : Z) : list A :=
  firstn (Z.to_nat (hi - lo)) (skipn (Z.to_nat lo) s).

(** [l[i]]; [None] stands for Go's index-out-of-range panic. *)
Definition index {A} (l : list A) (i : Z) : option A :=
  if i <? 0 then None else nth_error l (Z.to_nat i).

Definition bytes_eqb (x y : bytes) : bool :=
  if list_eq_dec Byte.byte_eq_dec x y then true else false.

Definition NL : byte := x0a.
Definition TAB : byte := x09.
Definition SPACE : byte := x20.
Definition QUOTE : byte := x22.
Definition AMP : byte := x26.
Definition PLUS : byte := x2b.
Definition MINUS : byte := x2d.
Definition LT : byte := x3c.
Definition GT : byte := x3e.
Definition AT : byte := x40.
Definition NUL : byte := x00.

(** ** io.Writer *)

Definition Writer := bytes.

Definition Write (w : Writer) (p : bytes) : Writer := w ++ p.

(** ** Escaping: [escapeSingleChar] and [attrEscape] *)

Definition escapeSingleChar (char : byte) : bytes * bool :=
  if Byte.eqb char QUOTE then (lit "&quot;", true)
  else if Byte.eqb char AMP then (lit "&amp;", true)
  else if Byte.eqb char LT then (lit "&lt;", true)
  else if Byte.eqb char GT then (lit "&gt;", true)
  else (lit "", false).

(** The [for i, ch := range src] loop of [attrEscape]: [rest] is the part of
    [src] still to be scanned, [i] the index of its first byte. *)
Fixpoint attrEscape_loop (src rest : bytes) (i org : Z) (w : Writer)
  : Z * Writer :=
  match rest with
  | [] => (org, w)
  | ch :: rest' =>
      let '(entity, ok) := escapeSingleChar ch in
      if ok then
        let w1 := if org <? i then Write w (slice src org i) else w in
        attrEscape_loop src rest' (i + 1) (i + 1) (Write w1 entity)
      else
        attrEscape_loop src rest' (i + 1) org w
  end.

Definition attrEscape (w : Writer) (src : bytes) : Writer :=
  let '(org, w1) := attrEscape_loop src src 0 0 w in
  if org <? len src then Write w1 (slice src org (len src)) else w1.

(** What the escaping of one byte is: its entity, or the byte itself. *)
Definition escape_byte (c : byte) : bytes :=
  let '(entity, ok) := escapeSingleChar c in
  if ok then entity else [c].

(** ** Language tag of a fence-info string *)

Definition is_tab_or_space (c : byte) : bool :=
  Byte.eqb c TAB || Byte.eqb c SPACE.

(** [bytes.IndexAny(s, "\t ")]: index of the first tab or space, or -1. *)
Fixpoint IndexAny_tab_space (s : bytes) : Z :=
  match s with
  | [] => -1
  | c :: t =>
      if is_tab_or_space c then 0
      else let r := IndexAny_tab_space t in
           if r <? 0 then -1 else r + 1
  end.

Definition findLang (info : bytes) : bytes :=
  let endOfLang := IndexAny_tab_space info in
  if endOfLang <? 0 then lit ""
  else slice info 0 endOfLang.

(** [attrs[0] += s]; [None] is the index-out-of-range panic. *)
Definition append_to_first (attrs : list bytes) (s : bytes)
  : option (list bytes) :=
  match attrs with
  | [] => None
  | a :: t => Some ((a ++ s) :: t)
  end.

Definition appendLanguageAttr (attrs : list bytes) (info : bytes)
  : option (list bytes) :=
  let attrs := attrs ++ [litq "class='highlight"] in
  if len info =? 0 then append_to_first attrs (litq "'")
  else
    let endOfLang := IndexAny_tab_space info in
    let endOfLang := if endOfLang <? 0 then len info else endOfLang in
    Some (attrs ++ [lit "highlight-" ++ slice info 0 endOfLang ++ litq "'"]).

(** ** The blackfriday node, as far as [main.go] reads it *)

Inductive NodeType :=
| Document | BlockQuote | List_ | Item | Paragraph | Heading
| HorizontalRule | Emph | Strong | Del | Link | Image | Text | HTMLBlock
| CodeBlock | Softbreak | Hardbreak | Code | HTMLSpan | Table | TableCell
| TableHead | TableBody | TableRow.

Inductive WalkStatus := GoToNext | SkipChildren | Terminate.

(** [Prev] and [Parent] are pointers: [Prev] is only compared with nil, of
    [Parent] only the [Type] is read ([None] is the nil pointer).  [Type_]
    is the field [Type], [Level] is [HeadingData.Level]. *)
Record Node := {
  Type_ : NodeType;
  Prev : option unit;
  Parent : option NodeType;
  Literal : bytes;
  Level : Z;
  Info : bytes
}.

(** ** The parsed HTML tree of [golang.org/x/net/html] *)

Inductive HtmlNodeType :=
| ErrorNode | TextNode | DocumentNode | ElementNode | CommentNode
| DoctypeNode.

Inductive HtmlNode :=
| HNode (ty : HtmlNodeType) (Data : bytes) (children : list HtmlNode).

(** [extractText]: the loop over [n.FirstChild], [c.NextSibling], ... is the
    inner fixpoint, [out] its accumulator. *)
Fixpoint extractText (n : HtmlNode) : bytes :=
  match n with
  | HNode _ _ children =>
      (fix siblings (out : bytes) (cs : list HtmlNode) : bytes :=
         match cs with
         | [] => out
         | c :: cs' =>
             match c with
             | HNode TextNode data _ => siblings (out ++ data) cs'
             | _ => siblings (out ++ extractText c) cs'
             end
         end) [] children
  end.

(** [%d] of [fmt.Sprintf]. *)
Definition itoa (n : Z) : bytes :=
  lit (NilZero.string_of_int (Z.to_int n)).

(** ** Annotations and the diff-hunk scan of [highlightCode] *)

(** [annotate.Annotation]; [End_] is its field [End]. *)
Record Annotation := {
  Start : Z;
  End_ : Z;
  Left : bytes;
  Right : bytes;
  WantInner : Z
}.

(** [bytes.Split(src, []byte("\n"))]: never empty, one more element than
    there are newlines. *)
Fixpoint Split_nl (src : bytes) : list bytes :=
  match src with
  | [] => [[]]
  | c :: t =>
      if Byte.eqb c NL then [] :: Split_nl t
      else match Split_nl t with
           | [] => [[c]]
           | l :: ls => (c :: l) :: ls
           end
  end.

(** The first loop: [lineStarts[lineIndex] = offset;
    offset += len(lines[lineIndex]) + 1]. *)
Fixpoint lineStarts_from (lines : list bytes) (offset : Z) : list Z :=
  match lines with
  | [] => []
  | l :: t => offset :: lineStarts_from t (offset + (len l + 1))
  end.

Definition lineStarts_of (lines : list bytes) : list Z :=
  lineStarts_from lines 0.

(** [var lineFirstChar byte; if len(line) > 0 { lineFirstChar = line[0] }] *)
Definition firstChar (line : bytes) : byte :=
  match line with
  | [] => NUL
  | c :: _ => c
  end.

(** [for line := from; line < to; line++
       { content += "\x00" + string(lines[line][1:]) + "\n" }];
    [None] is a panic: [lines[line]] out of range or [[1:]] of an empty
    line. *)
Fixpoint content_loop (lines : list bytes) (line : Z) (n : nat)
  (content : bytes) : option bytes :=
  match n with
  | O => Some content
  | S n' =>
      match index lines line with
      | Some (_ :: t) =>
          content_loop lines (line + 1) n' (content ++ NUL :: t ++ [NL])
      | _ => None
      end
  end.

Definition strippedContent (lines : list bytes) (from to : Z)
  : option bytes :=
  content_loop lines from (Z.to_nat (to - from)) [].

(** One execution of the close-out body of the [default:] case: the line
    indices after the fix-up of the two markers, the four offsets read from
    [lineStarts], and, when the guard ['@' != lineFirstChar] lets the
    fine-grained pass run, the two texts handed to
    [highlight_diff.HighlightedDiffFunc]. *)
Record ChangeHunk := {
  hunkDel : Z;
  hunkIns : Z;
  hunkLine : Z;
  beginOffsetLeft : Z;
  endOffsetLeft : Z;
  beginOffsetRight : Z;
  endOffsetRight : Z;
  fine : option (bytes * bytes)
}.

Definition old_range (h : ChangeHunk) : Z * Z :=
  (beginOffsetLeft h, endOffsetLeft h).

Definition new_range (h : ChangeHunk) : Z * Z :=
  (beginOffsetRight h, endOffsetRight h).

Definition closeHunk (lines : list bytes) (lineStarts : list Z)
  (lineIndex : Z) (lineFirstChar : byte) (lastDel lastIns : Z)
  : option ChangeHunk :=
  let lastDel' := if lastDel =? -1 then lastIns else lastDel in
  let lastIns' :=
    if lastDel =? -1 then lastIns
    else if lastIns =? -1 then lineIndex else lastIns in
  match index lineStarts lastDel', index lineStarts lastIns',
        index lineStarts lineIndex with
  | Some bl, Some el, Some er =>
      if negb (Byte.eqb AT lineFirstChar) then
        match strippedContent lines lastDel' lastIns',
              strippedContent lines lastIns' lineIndex with
        | Some leftContent, Some rightContent =>
            Some {| hunkDel := lastDel'; hunkIns := lastIns';
                    hunkLine := lineIndex;
                    beginOffsetLeft := bl; endOffsetLeft := el;
                    beginOffsetRight := el; endOffsetRight := er;
                    fine := Some (leftContent, rightContent) |}
        | _, _ => None
        end
      else
        Some {| hunkDel := lastDel'; hunkIns := lastIns';
                hunkLine := lineIndex;
                beginOffsetLeft := bl; endOffsetLeft := el;
                beginOffsetRight := el; endOffsetRight := er;
                fine := None |}
  | _, _, _ => None
  end.

(** The body of the second loop for the line [line] at [lineIndex]: the new
    markers and the hunk closed out, if any. *)
Definition scanLine (lines : list bytes) (lineStarts : list Z)
  (lineIndex : Z) (line : bytes) (lastDel lastIns : Z)
  : option (Z * Z * list ChangeHunk) :=
  let lineFirstChar := firstChar line in
  if Byte.eqb lineFirstChar PLUS then
    Some (lastDel, if lastIns =? -1 then lineIndex else lastIns, [])
  else if Byte.eqb lineFirstChar MINUS then
    Some (if lastDel =? -1 then lineIndex else lastDel, lastIns, [])
  else if negb (lastDel =? -1) || negb (lastIns =? -1) then
    match closeHunk lines lineStarts lineIndex lineFirstChar
            lastDel lastIns with
    | Some h => Some (-1, -1, [h])
    | None => None
    end
  else Some (-1, -1, []).

(** The second loop, from [lineIndex] on; [rest] is [lines[lineIndex:]].
    The result holds the two markers as the loop leaves them and the hunks
    closed out, in the order of the scan. *)
Fixpoint scanLines (lines : list bytes) (lineStarts : list Z)
  (rest : list bytes) (lineIndex lastDel lastIns : Z)
  : option (Z * Z * list ChangeHunk) :=
  match rest with
  | [] => Some (lastDel, lastIns, [])
  | line :: rest' =>
      match scanLine lines lineStarts lineIndex line lastDel lastIns with
      | Some (lastDel', lastIns', hs) =>
          match scanLines lines lineStarts rest' (lineIndex + 1)
                  lastDel' lastIns' with
          | Some (lastDel'', lastIns'', hs') =>
              Some (lastDel'', lastIns'', hs ++ hs')
          | None => None
          end
      | None => None
      end
  end.

(** The whole scan of [src], started with [lastDel, lastIns := -1, -1]. *)
Definition scan (src : bytes) : option (Z * Z * list ChangeHunk) :=
  let lines := Split_nl src in
  scanLines lines (lineStarts_of lines) lines 0 (-1) (-1).

(** The hunks closed out by the scan of [src]; nothing follows the loop, so
    the markers it leaves are dropped. *)
Definition segment (src : bytes) : option (list ChangeHunk) :=
  match scan src with
  | Some (_, _, hunks) => Some hunks
  | None => None
  end.

(** The two coarse wrappers appended for a hunk. *)
Definition coarseLeft (h : ChangeHunk) : Annotation :=
  {| Start := beginOffsetLeft h; End_ := endOffsetLeft h;
     Left := litq "<span class='gd input-block'>"; Right := lit "</span>";
     WantInner := 0 |}.

Definition coarseRight (h : ChangeHunk) : Annotation :=
  {| Start := beginOffsetRight h; End_ := endOffsetRight h;
     Left := litq "<span class='gi input-block'>"; Right := lit "</span>";
     WantInner := 0 |}.

(** [bytes.Join(lines, []byte("\n"))], the inverse of [Split_nl] on lines
    that hold no newline. *)
Fixpoint Join_nl (lines : list bytes) : bytes :=
  match lines with
  | [] => []
  | [l] => l
  | l :: ls => l ++ NL :: Join_nl ls
  end.

(** The [case] labels of the [switch lang] of [highlightCode]. *)
Definition recognized (lang : bytes) : bool :=
  bytes_eqb lang (lit "Go") || bytes_eqb lang (lit "Go-unformatted")
  || bytes_eqb lang (lit "diff").

(** ** The renderer, over its external collaborators *)

Section Renderer.

(** [html.Parse] ([None] is a non-nil [err]), [html.UnescapeString] and
    [sanitized_anchor_name.Create]. *)
Variable html_Parse : bytes -> option HtmlNode.
Variable html_UnescapeString : bytes -> bytes.
Variable sanitized_anchor_name_Create : bytes -> bytes.

(** [highlight_go.Print] with the GFM printer, and
    [highlight_diff.Annotate]; [None] is a non-nil [err]. *)
Variable highlight_go_Print : bytes -> option bytes.
Variable highlight_diff_Annotate : bytes -> option (list Annotation).

(** [highlight_diff.HighlightedDiffFunc(leftContent, rightContent,
    &sectionSegments, offsets)]: the two segment lists it fills in. *)
Variable HighlightedDiffFunc :
  bytes -> bytes -> Z * Z -> list Annotation * list Annotation.

(** [sort.Sort(anns)] and [annotate.Annotate(src, anns,
    template.HTMLEscape)]; [None] is a non-nil [err]. *)
Variable sort_Sort : list Annotation -> list Annotation.
Variable annotate_Annotate : bytes -> list Annotation -> option bytes.

(** The text of a heading from which the anchor name is made. *)
Definition headingTextContent (literal : bytes) : bytes :=
  match html_Parse literal with
  | Some htmlNode => extractText htmlNode
  | None => html_UnescapeString literal
  end.

Definition heading (w : Writer) (node : Node) (entering : bool)
  : Writer * WalkStatus :=
  let w := match Prev node with
           | Some _ => Write w [NL]
           | None => w
           end in
  let textContent := headingTextContent (Literal node) in
  let anchorName := sanitized_anchor_name_Create textContent in
  let w := Write w
    (lit "<h" ++ itoa (Level node) ++ litq "><a name='" ++ anchorName
     ++ litq "' class='anchor' href='#" ++ anchorName
     ++ litq "' rel='nofollow' aria-hidden='true'><span class='octicon octicon-link'></span></a>") in
  let w := Write w (lit "</h" ++ itoa (Level node) ++ lit ">" ++ [NL]) in
  (w, GoToNext).

(** All that the close-out body appends to [anns] for one hunk. *)
Definition hunkAnns (h : ChangeHunk) : list Annotation :=
  [coarseLeft h; coarseRight h]
  ++ match fine h with
     | Some (leftContent, rightContent) =>
         let '(seg0, seg1) :=
           HighlightedDiffFunc leftContent rightContent
             (beginOffsetLeft h, beginOffsetRight h) in
         seg0 ++ seg1
     | None => []
     end.

(** [highlightCode]: the outer [None] is a panic, the pair is Go's
    [(highlightedCode, ok)]. *)
Definition highlightCode (src : bytes) (lang : bytes)
  : option (bytes * bool) :=
  if bytes_eqb lang (lit "Go") || bytes_eqb lang (lit "Go-unformatted")
  then
    match highlight_go_Print src with
    | None => Some ([], false)
    | Some buf => Some (buf, true)
    end
  else if bytes_eqb lang (lit "diff") then
    match highlight_diff_Annotate src with
    | None => Some ([], false)
    | Some anns =>
        match segment src with
        | None => None
        | Some hunks =>
            let anns := anns ++ flat_map hunkAnns hunks in
            match annotate_Annotate src (sort_Sort anns) with
            | None => Some ([], false)
            | Some out => Some (out, true)
            end
        end
    end
  else Some ([], false).

(** The two [if len(lang) == 0] statements of [codeblock], before and after
    the body: what is written depends on the tag alone. *)
Definition wrapperOpen (lang : bytes) : bytes :=
  if len lang =? 0 then lit "<pre><code>"
  else litq "<div class='highlight highlight-" ++ lang ++ litq "'>".

Definition wrapperClose (lang : bytes) : bytes :=
  if len lang =? 0 then lit "</code></pre>"
  else lit "</pre></div>".

(** [codeblock]; [None] is a panic (of [highlightCode], or the nil
    [node.Parent] read at the end). *)
Definition codeblock (w : Writer) (node : Node) (entering : bool)
  : option (Writer * WalkStatus) :=
  let lang := findLang (Info node) in
  let w := Write w (wrapperOpen lang) in
  match highlightCode (Literal node) lang with
  | None => None
  | Some (highlightedCode, ok) =>
      let w := if ok then Write w highlightedCode
               else attrEscape w (Literal node) in
      let w := Write w (wrapperClose lang) in
      match Parent node with
      | None => None
      | Some _ => Some (w, GoToNext)
      end
  end.

Definition RenderNode (w : Writer) (node : Node) (entering : bool)
  : option (Writer * WalkStatus) :=
  match Type_ node with
  | Heading => Some (heading w node entering)
  | CodeBlock => codeblock w node entering
  | _ => Some (w, GoToNext)
  end.

(** The ways in which the highlighter of a language [highlightCode] knows
    can return an error: [highlight_go.Print], [highlight_diff.Annotate], or
    [annotate.Annotate] on the annotations gathered for a diff. *)
Inductive HighlighterError (src lang : bytes) : Prop :=
| GoPrintError :
    lang = lit "Go" \/ lang = lit "Go-unformatted" ->
    highlight_go_Print src = None ->
    HighlighterError src lang
| DiffAnnotateError :
    lang = lit "diff" ->
    highlight_diff_Annotate src = None ->
    HighlighterError src lang
| AnnotateError (anns : list Annotation) (hunks : list ChangeHunk) :
    lang = lit "diff" ->
    highlight_diff_Annotate src = Some anns ->
    segment src = Some hunks ->
    annotate_Annotate src (sort_Sort (anns ++ flat_map hunkAnns hunks))
    = None ->
    HighlighterError src lang.

End Renderer.

(** ** What the specification says, for comparison with the code *)

(** The escape of one byte in the specification's words: the four HTML
    metacharacters become entities, every other byte is copied. *)
Definition spec_escape_byte (c : byte) : bytes :=
  match c with
  | x22 => lit "&quot;"
  | x26 => lit "&amp;"
  | x3c => lit "&lt;"
  | x3e => lit "&gt;"
  | _ => [c]
  end.

Definition spec_escape (src : bytes) : bytes :=
  List.concat (map spec_escape_byte src).

(** The language tag in the specification's words: the fence-info string
    up to its first whitespace (tab or space), the whole string when it has
    none. *)
Fixpoint spec_language_tag (info : bytes) : bytes :=
  match info with
  | [] => []
  | c :: t => if is_tab_or_space c then [] else c :: spec_language_tag t
  end.

(** The heading markup contract of the specification, for level [L], anchor
    slug [S] and inline content [T]; [spec_heading_anchor] is its part up to
    the end of the anchor element. *)
Definition spec_heading_anchor (L : Z) (S : bytes) : bytes :=
  lit "<h" ++ itoa L ++ litq "><a name='" ++ S
  ++ litq "' class='anchor' href='#" ++ S
  ++ litq "' rel='nofollow' aria-hidden='true'><span class='octicon octicon-link'></span></a>".

Definition spec_heading_markup (L : Z) (S T : bytes) : bytes :=
  spec_heading_anchor L S ++ T ++ lit "</h" ++ itoa L ++ lit ">".

(** The code block wrapper contract of the specification: the [div] and
    [pre] wrapper around the annotated code for a recognized language, the
    plain [pre] and [code] wrapper around the escaped code otherwise. *)
Definition spec_codeblock_markup (is_recognized : bool) (lang code : bytes)
  : bytes :=
  if is_recognized
  then litq "<div class='highlight highlight-" ++ lang ++ litq "'><pre>"
       ++ code ++ lit "</pre></div>"
  else lit "<pre><code>" ++ code ++ lit "</code></pre>".

(** ** Inputs the properties below are evaluated at *)

(** The scan of ["-a\n@@ -1 +1 @@"] closes out this one hunk. *)
Definition hunk_before_header : ChangeHunk :=
  {| hunkDel := 0; hunkIns := 1; hunkLine := 1;
     beginOffsetLeft := 0; endOffsetLeft := 3;
     beginOffsetRight := 3; endOffsetRight := 3;
     fine := None |}.

(** The two line sequences of the segmentation examples. *)
Definition change_lines : list bytes :=
  [lit "-a"; lit "-b"; lit "+c"; lit "+d"; lit "e"].

Definition deletion_lines : list bytes := [lit "-a"; lit "-b"; lit "e"].

(** A block node with the given fence-info string and content, as the
    parser hangs it under the document. *)
Definition codeBlockNode (info literal : bytes) : Node :=
  {| Type_ := CodeBlock; Prev := None; Parent := Some Document;
     Literal := literal; Level := 0; Info := info |}.

(** A first heading of the given level whose inline content is
    [literal]. *)
Definition headingNode (level : Z) (literal : bytes) : Node :=
  {| Type_ := Heading; Prev := None; Parent := Some Document;
     Literal := literal; Level := level; Info := [] |}.

(** Collaborators at which the properties with hypotheses are
    instantiated: a parser and highlighters that always return an error, an
    unescaping and a slug generator that change nothing, a fine-grained diff
    that finds no segment, and a sort of an already sorted list. *)
Definition failing_Parse (fragment : bytes) : option HtmlNode := None.

Definition identity_Unescape (fragment : bytes) : bytes := fragment.

Definition identity_Create (title : bytes) : bytes := title.

Definition failing_Print (src : bytes) : option bytes := None.

Definition failing_diff_Annotate (src : bytes) : option (list Annotation) :=
  None.

Definition empty_HighlightedDiffFunc (leftContent rightContent : bytes)
  (offsets : Z * Z) : list Annotation * list Annotation := ([], []).

Definition identity_Sort (anns : list Annotation) : list Annotation := anns.

Definition failing_Annotate (src : bytes) (anns : list Annotation)
  : option bytes := None.

(** ** Invariants of the scan *)

(** Line [k] starts with a ['+'] or a ['-']. *)
Definition marked (lines : list bytes) (k : Z) : Prop :=
  exists c t, index lines k = Some (c :: t) /\ (c = PLUS \/ c = MINUS).

(** The loop invariant at [lineIndex]: a marker that is set points to an
    earlier line, [lastDel] to one that starts with ['-'] and [lastIns] to
    one that starts with ['+'], and every line from a set marker up to
    [lineIndex] (excluded) starts with ['+'] or ['-']. *)
Definition markers_ok (lines : list bytes) (lineIndex lastDel lastIns : Z)
  : Prop :=
  (lastDel = -1
   \/ (0 <= lastDel < lineIndex
       /\ exists t, index lines lastDel = Some (MINUS :: t)))
  /\ (lastIns = -1
      \/ (0 <= lastIns < lineIndex
          /\ exists t, index lines lastIns = Some (PLUS :: t)))
  /\ (forall k, k < lineIndex ->
        (lastDel <> -1 /\ lastDel <= k) \/ (lastIns <> -1 /\ lastIns <= k) ->
        marked lines k).

(** [h] is the hunk closed out at some line of [lines] that starts with
    neither ['+'] nor ['-'], from markers the loop can hold there, at least
    one of which is set. *)
Definition closed_at (lines : list bytes) (h : ChangeHunk) : Prop :=
  exists lineIndex line lastDel lastIns,
    0 <= lineIndex < len lines
    /\ index lines lineIndex = Some line
    /\ firstChar line <> PLUS /\ firstChar line <> MINUS
    /\ markers_ok lines lineIndex lastDel lastIns
    /\ (lastDel <> -1 \/ lastIns <> -1)
    /\ closeHunk lines (lineStarts_of lines) lineIndex (firstChar line)
         lastDel lastIns = Some h.

(** ** Further functions of [main.go] *)

(** [bytes.HasPrefix]. *)
Fixpoint HasPrefix (s prefix : bytes) {struct prefix} : bool :=
  match prefix with
  | [] => true
  | p :: prefix' =>
      match s with
      | [] => false
      | c :: s' => Byte.eqb c p && HasPrefix s' prefix'
      end
  end.

(** The [switch] of [ListItem]: the item text with a leading task marker
    turned into a checkbox.  [text[3:]] is in range in both cases, the
    prefix being four bytes long. *)
Definition taskListText (text : bytes) : bytes :=
  if HasPrefix text (lit "[ ] ") then
    litq "<input type='checkbox' disabled=''>" ++ slice text 3 (len text)
  else if HasPrefix text (lit "[x] ") || HasPrefix text (lit "[X] ") then
    litq "<input type='checkbox' checked='' disabled=''>"
    ++ slice text 3 (len text)
  else text.

Section TaskList.

(** [r.HTMLRenderer.ListItem(out, text, flags)] of blackfriday: the buffer
    after the call. *)
Variable HTMLRenderer_ListItem : bytes -> bytes -> Z -> bytes.

Definition ListItem (out text : bytes) (flags : Z) : bytes :=
  HTMLRenderer_ListItem out (taskListText text) flags.

End TaskList.

(** The atoms of [golang.org/x/net/html/atom] that [Heading] names or is
    documented to take, and their [String()]. *)
Inductive Atom :=
| atom_A | atom_Class | atom_Href | atom_Name | atom_Rel | atom_Span
| atom_H1 | atom_H2 | atom_H3 | atom_H4 | atom_H5 | atom_H6.

Definition Atom_String (a : Atom) : bytes :=
  match a with
  | atom_A => lit "a" | atom_Class => lit "class" | atom_Href => lit "href"
  | atom_Name => lit "name" | atom_Rel => lit "rel" | atom_Span => lit "span"
  | atom_H1 => lit "h1" | atom_H2 => lit "h2" | atom_H3 => lit "h3"
  | atom_H4 => lit "h4" | atom_H5 => lit "h5" | atom_H6 => lit "h6"
  end.

(** [html.Attribute] and an [html.Node] that is built rather than read:
    its attributes are kept. *)
Record Attribute := { Key : bytes; Val : bytes }.

Inductive AttrNode :=
| ANode (ty : HtmlNodeType) (Data : bytes) (Attr : list Attribute)
    (children : list AttrNode).

(** The same tree as [extractText] reads it: types, data and children. *)
Fixpoint forgetAttr (n : AttrNode) : HtmlNode :=
  match n with
  | ANode ty data _ children =>
      HNode ty data
        ((fix each (cs : list AttrNode) : list HtmlNode :=
            match cs with
            | [] => []
            | c :: cs' => forgetAttr c :: each cs'
            end) children)
  end.

Section ExportedHeading.

Variable sanitized_anchor_name_Create : bytes -> bytes.

(** [octiconssvg.Link()]: a fresh node, without siblings. *)
Variable octiconssvg_Link : AttrNode.

(** [Heading]; the three [AppendChild] calls are given fresh nodes and do
    not panic. *)
Definition Heading_ (heading : Atom) (title : bytes) : AttrNode :=
  let aName := sanitized_anchor_name_Create title in
  let span :=
    ANode ElementNode (Atom_String atom_Span)
      [{| Key := Atom_String atom_Class; Val := lit "octicon-link" |}]
      [octiconssvg_Link] in
  let a :=
    ANode ElementNode (Atom_String atom_A)
      [{| Key := Atom_String atom_Name; Val := aName |};
       {| Key := Atom_String atom_Class; Val := lit "anchor" |};
       {| Key := Atom_String atom_Href; Val := lit "#" ++ aName |};
       {| Key := Atom_String atom_Rel; Val := lit "nofollow" |};
       {| Key := lit "aria-hidden"; Val := lit "true" |}]
      [span] in
  ANode ElementNode (Atom_String heading) []
    [a; ANode TextNode title [] []].

End ExportedHeading.

(** ** Notions the further properties are stated with *)

(** What one child contributes to [extractText] of its parent. *)
Definition childText (c : HtmlNode) : bytes :=
  match c with
  | HNode TextNode data _ => data
  | _ => extractText c
  end.

(** A byte that [escapeSingleChar] leaves alone. *)
Definition plain_byte (c : byte) : bool := negb (snd (escapeSingleChar c)).

Definition no_whitespace (s : bytes) : bool :=
  forallb (fun c => negb (is_tab_or_space c)) s.

(** The first line of a hunk and the lines it spans: from the earlier of
    its two markers up to the line that closed it out (excluded). *)
Definition hunkFirst (h : ChangeHunk) : Z := Z.min (hunkDel h) (hunkIns h).

Definition hunk_covers (h : ChangeHunk) (k : Z) : Prop :=
  hunkFirst h <= k < hunkLine h.

(** Consecutive hunks of the list are apart: each starts after the line
    that closed the one before it. *)
Fixpoint hunks_apart (after : Z) (hs : list ChangeHunk) : Prop :=
  match hs with
  | [] => True
  | h :: hs' =>
      after <= hunkFirst h /\ hunkFirst h < hunkLine h
      /\ hunks_apart (hunkLine h + 1) hs'
  end.

(** The text [strippedContent] builds from one line. *)
Definition strippedLine (line : bytes) : bytes := NUL :: tl line ++ [NL].

(** * Properties *)

(** ** Slices and indices *)

Lemma len_app {A} (l1 l2 : list A) : len (l1 ++ l2) = len l1 + len l2.
Proof. unfold len. rewrite length_app. lia. Qed.

Lemma len_cons {A} (a : A) (l : list A) : len (a :: l) = len l + 1.
Proof. unfold len. simpl. lia. Qed.

Lemma len_nonneg {A} (l : list A) : 0 <= len l.
Proof. unfold len. lia. Qed.

Lemma len_nil_inv {A} (l : list A) : len l = 0 -> l = [].
Proof. destruct l; [reflexivity | rewrite len_cons; pose proof (len_nonneg l); lia]. Qed.

Lemma slice_prefix {A} (pre rest : list A) (org : Z) :
  0 <= org <= len pre ->
  slice (pre ++ rest) org (len pre) = skipn (Z.to_nat org) pre.
Proof.
  intros Horg. unfold slice, len in *.
  rewrite skipn_app.
  replace (Z.to_nat org - length pre)%nat with 0%nat by lia.
  rewrite firstn_app.
  rewrite length_skipn.
  replace (Z.to_nat (Z.of_nat (length pre) - org)
           - (length pre - Z.to_nat org))%nat with 0%nat by lia.
  simpl. rewrite app_nil_r.
  apply firstn_all2. rewrite length_skipn. lia.
Qed.

Lemma slice_prefix_snoc {A} (pre rest : list A) (ch : A) (org : Z) :
  0 <= org <= len pre ->
  slice (pre ++ ch :: rest) org (len pre + 1)
  = slice (pre ++ ch :: rest) org (len pre) ++ [ch].
Proof.
  intros Horg. rewrite slice_prefix by assumption.
  replace (pre ++ ch :: rest) with ((pre ++ [ch]) ++ rest)
    by (rewrite <- app_assoc; reflexivity).
  replace (len pre + 1) with (len (pre ++ [ch]))
    by (rewrite len_app; reflexivity).
  rewrite slice_prefix by (rewrite len_app; unfold len in *; simpl; lia).
  rewrite skipn_app.
  replace (Z.to_nat org - length pre)%nat with 0%nat
    by (unfold len in Horg; lia).
  reflexivity.
Qed.

Lemma slice_empty {A} (s : list A) (i : Z) : slice s i i = [].
Proof. unfold slice. rewrite Z.sub_diag. reflexivity. Qed.

Lemma slice_from_0 {A} (pre rest : list A) :
  slice (pre ++ rest) 0 (len pre) = pre.
Proof.
  rewrite slice_prefix by (pose proof (len_nonneg pre); lia). reflexivity.
Qed.

(** ** Escaping *)

Lemma escape_byte_spec (c : byte) : escape_byte c = spec_escape_byte c.
Proof. destruct c; reflexivity. Qed.

Lemma escapeSingleChar_escape_byte (c : byte) :
  escape_byte c = if snd (escapeSingleChar c) then fst (escapeSingleChar c)
                  else [c].
Proof. unfold escape_byte. destruct (escapeSingleChar c); reflexivity. Qed.

(** The loop invariant of [attrEscape]: what has been written, followed by
    the bytes copied lazily since [org], is the escape of the scanned
    prefix. *)
Lemma attrEscape_loop_inv (src rest : bytes) :
  forall (pre : bytes) (org : Z) (w : Writer),
    src = pre ++ rest ->
    0 <= org <= len pre ->
    let r := attrEscape_loop src rest (len pre) org w in
    0 <= fst r <= len src
    /\ snd r ++ slice src (fst r) (len src)
       = w ++ slice src org (len pre) ++ List.concat (map escape_byte rest).
Proof.
  induction rest as [| ch rest' IH]; intros pre org w Hsrc Horg; cbn zeta.
  - simpl. rewrite app_nil_r in *. subst src.
    split; [assumption | reflexivity].
  - simpl attrEscape_loop. simpl map. simpl List.concat.
    assert (Hsrc' : src = (pre ++ [ch]) ++ rest')
      by (rewrite <- app_assoc; exact Hsrc).
    assert (Hlen : len pre + 1 = len (pre ++ [ch]))
      by (rewrite len_app; reflexivity).
    assert (Hsnoc : slice src org (len pre + 1)
                    = slice src org (len pre) ++ [ch])
      by (rewrite Hsrc; apply slice_prefix_snoc; assumption).
    rewrite escapeSingleChar_escape_byte.
    destruct (escapeSingleChar ch) as [entity ok]. simpl fst; simpl snd.
    rewrite Hlen in *.
    destruct ok.
    + assert (Hw1 : (if org <? len pre
                     then Write w (slice src org (len pre)) else w)
                    = w ++ slice src org (len pre)).
      { destruct (org <? len pre) eqn:E; [reflexivity |].
        apply Z.ltb_ge in E.
        replace org with (len pre) by lia.
        rewrite slice_empty, app_nil_r. reflexivity. }
      rewrite Hw1.
      specialize (IH (pre ++ [ch]) (len (pre ++ [ch]))
                    (Write (w ++ slice src org (len pre)) entity) Hsrc').
      cbn zeta in IH.
      destruct IH as [Hb He]; [pose proof (len_nonneg (pre ++ [ch])); lia |].
      split; [exact Hb |].
      rewrite He. rewrite slice_empty. unfold Write.
      rewrite <- !app_assoc. reflexivity.
    + specialize (IH (pre ++ [ch]) org w Hsrc'). cbn zeta in IH.
      destruct IH as [Hb He]; [lia |].
      split; [exact Hb |].
      rewrite He. rewrite Hsnoc.
      rewrite <- !app_assoc. reflexivity.
Qed.

Lemma attrEscape_concat (w : Writer) (src : bytes) :
  attrEscape w src = w ++ List.concat (map escape_byte src).
Proof.
  unfold attrEscape.
  pose proof (attrEscape_loop_inv src src [] 0 w eq_refl) as H.
  cbn zeta in H. change (len (@nil byte)) with 0 in H.
  destruct (attrEscape_loop src src 0 0 w) as [org w1].
  simpl fst in H; simpl snd in H. destruct H as [Hb He]; [lia |].
  rewrite slice_empty in He. simpl in He. rewrite <- He.
  destruct (org <? len src) eqn:E; [reflexivity |].
  apply Z.ltb_ge in E. replace org with (len src) by lia.
  rewrite slice_empty, app_nil_r. reflexivity.
Qed.

Lemma attrEscape_spec_escape (w : Writer) (src : bytes) :
  attrEscape w src = w ++ spec_escape src.
Proof.
  rewrite attrEscape_concat. unfold spec_escape. f_equal. f_equal.
  apply map_ext. exact escape_byte_spec.
Qed.

(** C9: for every input byte sequence (and whatever was written before),
    [attrEscape] writes exactly the concatenation, in order, of the escapes
    of the input bytes, where the escape of a byte is [&quot;], [&amp;],
    [&lt;], [&gt;] for the four metacharacters and the byte itself
    otherwise; so no byte is dropped or duplicated. *)
Theorem attrEscape_is_bytewise_escape :
  forall (w : Writer) (src : bytes),
    attrEscape w src = w ++ List.concat (map spec_escape_byte src)
    /\ (forall c, escape_byte c = spec_escape_byte c).
Proof.
  intros w src. split.
  - exact (attrEscape_spec_escape w src).
  - exact escape_byte_spec.
Qed.

(** ** Indexing *)

Lemma index_Some_lt {A} (l : list A) (k : Z) :
  0 <= k < len l -> exists x, index l k = Some x.
Proof.
  unfold index, len. intros Hk.
  destruct (k <? 0) eqn:E; [lia |].
  destruct (nth_error l (Z.to_nat k)) eqn:N; [eauto |].
  apply nth_error_None in N. lia.
Qed.

Lemma index_app_here {A} (pre rest : list A) (x : A) :
  index (pre ++ x :: rest) (len pre) = Some x.
Proof.
  unfold index, len.
  destruct (Z.ltb_spec (Z.of_nat (length pre)) 0) as [E | E]; [lia |].
  rewrite Nat2Z.id, nth_error_app2 by apply Nat.le_refl.
  rewrite Nat.sub_diag. reflexivity.
Qed.

Lemma index_bounds {A} (l : list A) (k : Z) (x : A) :
  index l k = Some x -> 0 <= k < len l.
Proof.
  unfold index, len. destruct (k <? 0) eqn:E; [discriminate |].
  intros H. assert (Z.to_nat k < length l)%nat
    by (apply nth_error_Some; congruence). lia.
Qed.

Lemma lineStarts_from_length (lines : list bytes) :
  forall offset, length (lineStarts_from lines offset) = length lines.
Proof.
  induction lines as [| l t IH]; intros offset; simpl;
    [reflexivity | rewrite IH; reflexivity].
Qed.

Lemma lineStarts_of_len (lines : list bytes) :
  len (lineStarts_of lines) = len lines.
Proof. unfold len, lineStarts_of. rewrite lineStarts_from_length. reflexivity. Qed.

Lemma firstChar_cons_inv (line : bytes) (c : byte) :
  firstChar line = c -> c <> NUL -> exists t, line = c :: t.
Proof.
  destruct line as [| c0 t]; simpl; intros H Hc; [congruence |].
  subst. eauto.
Qed.

(** ** The scan never panics *)

Lemma content_loop_total (lines : list bytes) :
  forall (n : nat) (line : Z) (content : bytes),
    (forall k, line <= k < line + Z.of_nat n -> marked lines k) ->
    exists s, content_loop lines line n content = Some s.
Proof.
  induction n as [| n IH]; intros line content Hm; simpl; [eauto |].
  destruct (Hm line) as (c & t & Hi & _); [lia |].
  rewrite Hi. apply IH. intros k Hk. apply Hm. lia.
Qed.

Lemma strippedContent_total (lines : list bytes) (from to : Z) :
  (forall k, from <= k < to -> marked lines k) ->
  exists s, strippedContent lines from to = Some s.
Proof.
  intros Hm. unfold strippedContent. apply content_loop_total.
  intros k Hk. apply Hm. lia.
Qed.

Lemma closeHunk_total (lines : list bytes) (i : Z) (c : byte) (d n : Z) :
  0 <= i < len lines ->
  markers_ok lines i d n ->
  d <> -1 \/ n <> -1 ->
  exists h, closeHunk lines (lineStarts_of lines) i c d n = Some h.
Proof.
  intros Hi (Hd & Hn & Hrange) Hpend. unfold closeHunk.
  set (d' := if d =? -1 then n else d).
  set (n' := if d =? -1 then n else if n =? -1 then i else n).
  assert (Hd' : 0 <= d' <= i /\ 0 <= n' <= i /\
                (forall k, d' <= k < n' -> marked lines k) /\
                (forall k, n' <= k < i -> marked lines k)).
  { subst d' n'.
    destruct (Z.eqb_spec d (-1)) as [Ed | Ed];
      [| destruct (Z.eqb_spec n (-1)) as [En | En]].
    - destruct Hn as [Hn | [Hn _]]; [destruct Hpend; congruence |].
      split; [lia | split; [lia | split]].
      + intros k Hk; lia.
      + intros k Hk. apply Hrange; [lia | right; split; [lia | lia]].
    - destruct Hd as [Hd | [Hd _]]; [congruence |].
      split; [lia | split; [lia | split]].
      + intros k Hk. apply Hrange; [lia | left; split; [assumption | lia]].
      + intros k Hk; lia.
    - destruct Hd as [Hd | [Hd _]]; [congruence |].
      destruct Hn as [Hn | [Hn _]]; [congruence |].
      split; [lia | split; [lia | split]].
      + intros k Hk. apply Hrange; [lia | left; split; [assumption | lia]].
      + intros k Hk. apply Hrange; [lia | right; split; [assumption | lia]]. }
  destruct Hd' as (Bd & Bn & Ml & Mr).
  pose proof (lineStarts_of_len lines) as Hlen.
  destruct (index_Some_lt (lineStarts_of lines) d') as [bl ->]; [lia |].
  destruct (index_Some_lt (lineStarts_of lines) n') as [el ->]; [lia |].
  destruct (index_Some_lt (lineStarts_of lines) i) as [er ->]; [lia |].
  destruct (negb (Byte.eqb AT c)); [| eauto].
  destruct (strippedContent_total lines d' n' Ml) as [sl ->].
  destruct (strippedContent_total lines n' i Mr) as [sr ->].
  eauto.
Qed.

Lemma markers_ok_unset (lines : list bytes) (i : Z) :
  markers_ok lines i (-1) (-1).
Proof.
  split; [left; reflexivity | split; [left; reflexivity |]].
  intros k _ [[H _] | [H _]]; congruence.
Qed.

Lemma markers_ok_plus (lines pre rest : list bytes) (t : bytes) (d n : Z) :
  lines = pre ++ (PLUS :: t) :: rest ->
  markers_ok lines (len pre) d n ->
  markers_ok lines (len pre + 1) d (if n =? -1 then len pre else n).
Proof.
  intros Hl (Hd & Hn & Hr). pose proof (len_nonneg pre) as Hp.
  assert (Hhere : index lines (len pre) = Some (PLUS :: t))
    by (subst lines; apply index_app_here).
  split; [| split].
  - destruct Hd as [Hd | [Hd Ht]]; [left | right; split]; auto; lia.
  - destruct (Z.eqb_spec n (-1)) as [En | En].
    + right. split; [lia | eauto].
    + destruct Hn as [Hn | [Hn Ht]]; [congruence |].
      right. split; [lia | assumption].
  - intros k Hk Hc.
    destruct (Z.eq_dec k (len pre)) as [-> | Hne].
    + exists PLUS, t. auto.
    + apply Hr; [lia |].
      destruct Hc as [Hc | [Hc1 Hc2]]; [left; assumption |].
      destruct (Z.eqb_spec n (-1)) as [En | En]; [lia |].
      right. split; assumption.
Qed.

Lemma markers_ok_minus (lines pre rest : list bytes) (t : bytes) (d n : Z) :
  lines = pre ++ (MINUS :: t) :: rest ->
  markers_ok lines (len pre) d n ->
  markers_ok lines (len pre + 1) (if d =? -1 then len pre else d) n.
Proof.
  intros Hl (Hd & Hn & Hr). pose proof (len_nonneg pre) as Hp.
  assert (Hhere : index lines (len pre) = Some (MINUS :: t))
    by (subst lines; apply index_app_here).
  split; [| split].
  - destruct (Z.eqb_spec d (-1)) as [Ed | Ed].
    + right. split; [lia | eauto].
    + destruct Hd as [Hd | [Hd Ht]]; [congruence |].
      right. split; [lia | assumption].
  - destruct Hn as [Hn | [Hn Ht]]; [left | right; split]; auto; lia.
  - intros k Hk Hc.
    destruct (Z.eq_dec k (len pre)) as [-> | Hne].
    + exists MINUS, t. auto.
    + apply Hr; [lia |].
      destruct Hc as [[Hc1 Hc2] | Hc]; [| right; assumption].
      destruct (Z.eqb_spec d (-1)) as [Ed | Ed]; [lia |].
      left. split; assumption.
Qed.

Lemma pending_true (d n : Z) :
  negb (d =? -1) || negb (n =? -1) = true -> d <> -1 \/ n <> -1.
Proof.
  destruct (Z.eqb_spec d (-1)), (Z.eqb_spec n (-1)); simpl; auto.
  discriminate.
Qed.

Lemma pending_false (d n : Z) :
  negb (d =? -1) || negb (n =? -1) = false -> d = -1 /\ n = -1.
Proof.
  destruct (Z.eqb_spec d (-1)), (Z.eqb_spec n (-1)); simpl; auto;
    discriminate.
Qed.

(** One iteration from a state the loop can be in: it does not panic, keeps
    the invariant, and any hunk it yields was closed out at this line. *)
Lemma scanLine_inv (lines pre rest : list bytes) (line : bytes) (d n : Z) :
  lines = pre ++ line :: rest ->
  markers_ok lines (len pre) d n ->
  exists d' n' hs,
    scanLine lines (lineStarts_of lines) (len pre) line d n
    = Some (d', n', hs)
    /\ markers_ok lines (len pre + 1) d' n'
    /\ Forall (closed_at lines) hs.
Proof.
  intros Hl Hinv. unfold scanLine.
  destruct (Byte.eqb (firstChar line) PLUS) eqn:EP.
  { apply byte_dec_bl in EP.
    destruct (firstChar_cons_inv line PLUS EP) as [t ->]; [discriminate |].
    do 3 eexists. split; [reflexivity |].
    split; [eapply markers_ok_plus; eassumption | constructor]. }
  destruct (Byte.eqb (firstChar line) MINUS) eqn:EM.
  { apply byte_dec_bl in EM.
    destruct (firstChar_cons_inv line MINUS EM) as [t ->]; [discriminate |].
    do 3 eexists. split; [reflexivity |].
    split; [eapply markers_ok_minus; eassumption | constructor]. }
  apply eqb_false in EP. apply eqb_false in EM.
  assert (Hi : 0 <= len pre < len lines).
  { subst lines. rewrite len_app, len_cons.
    pose proof (len_nonneg pre). pose proof (len_nonneg rest). lia. }
  destruct (negb (d =? -1) || negb (n =? -1)) eqn:Ep.
  - apply pending_true in Ep.
    destruct (closeHunk_total lines (len pre) (firstChar line) d n Hi Hinv Ep)
      as [h Hh].
    rewrite Hh. exists (-1), (-1), [h].
    split; [reflexivity | split; [apply markers_ok_unset |]].
    constructor; [| constructor].
    exists (len pre), line, d, n.
    repeat (split; [first [assumption | subst lines; apply index_app_here] |]).
    assumption.
  - exists (-1), (-1), [].
    split; [reflexivity | split; [apply markers_ok_unset | constructor]].
Qed.

Lemma scanLines_inv (lines mid : list bytes) :
  forall (pre post : list bytes) (d n : Z),
    lines = pre ++ mid ++ post ->
    markers_ok lines (len pre) d n ->
    exists d' n' hs,
      scanLines lines (lineStarts_of lines) mid (len pre) d n
      = Some (d', n', hs)
      /\ markers_ok lines (len pre + len mid) d' n'
      /\ Forall (closed_at lines) hs.
Proof.
  induction mid as [| line mid' IH]; intros pre post d n Hl Hinv.
  - exists d, n, []. change (len (@nil bytes)) with 0. rewrite Z.add_0_r.
    split; [reflexivity | split; [assumption | constructor]].
  - destruct (scanLine_inv lines pre (mid' ++ post) line d n Hl Hinv)
      as (d1 & n1 & hs1 & H1 & Hinv1 & Hc1).
    assert (Hl' : lines = (pre ++ [line]) ++ mid' ++ post)
      by (rewrite <- app_assoc; exact Hl).
    assert (Hlen : len pre + 1 = len (pre ++ [line]))
      by (rewrite len_app; reflexivity).
    rewrite Hlen in Hinv1.
    destruct (IH (pre ++ [line]) post d1 n1 Hl' Hinv1)
      as (d2 & n2 & hs2 & H2 & Hinv2 & Hc2).
    exists d2, n2, (hs1 ++ hs2). simpl. rewrite H1, Hlen, H2.
    split; [reflexivity | split].
    + rewrite len_cons.
      replace (len pre + (len mid' + 1)) with (len (pre ++ [line]) + len mid')
        by lia.
      assumption.
    + apply Forall_app. split; assumption.
Qed.

(** The scan of any input completes: no index of [lineStarts] or [lines] is
    out of range and [[1:]] is never taken of an empty line. *)
Lemma scan_total (src : bytes) :
  exists d n hs,
    scan src = Some (d, n, hs)
    /\ markers_ok (Split_nl src) (len (Split_nl src)) d n
    /\ Forall (closed_at (Split_nl src)) hs.
Proof.
  unfold scan.
  destruct (scanLines_inv (Split_nl src) (Split_nl src) [] [] (-1) (-1))
    as (d & n & hs & Hs & Hinv & Hc).
  - rewrite app_nil_r. reflexivity.
  - apply markers_ok_unset.
  - exists d, n, hs. auto.
Qed.

Lemma segment_total (src : bytes) :
  exists hs, segment src = Some hs /\ Forall (closed_at (Split_nl src)) hs.
Proof.
  destruct (scan_total src) as (d & n & hs & Hs & _ & Hc).
  exists hs. unfold segment. rewrite Hs. auto.
Qed.

(** ** What a closed-out hunk holds *)

Lemma closeHunk_fields (lines : list bytes) (ls : list Z) (i : Z) (c : byte)
  (d n : Z) (h : ChangeHunk) :
  closeHunk lines ls i c d n = Some h ->
  hunkLine h = i
  /\ hunkDel h = (if d =? -1 then n else d)
  /\ hunkIns h = (if d =? -1 then n else if n =? -1 then i else n)
  /\ index ls (hunkDel h) = Some (beginOffsetLeft h)
  /\ index ls (hunkIns h) = Some (endOffsetLeft h)
  /\ beginOffsetRight h = endOffsetLeft h
  /\ index ls i = Some (endOffsetRight h)
  /\ (fine h = None <-> c = AT).
Proof.
  unfold closeHunk.
  set (d' := if d =? -1 then n else d).
  set (n' := if d =? -1 then n else if n =? -1 then i else n).
  destruct (index ls d') as [bl |] eqn:E1; [| discriminate].
  destruct (index ls n') as [el |] eqn:E2; [| discriminate].
  destruct (index ls i) as [er |] eqn:E3; [| discriminate].
  destruct (Byte.eqb AT c) eqn:Ec; simpl negb; cbv iota.
  - apply byte_dec_bl in Ec. intros [= <-]. simpl.
    repeat (split; [first [reflexivity | assumption] |]).
    split; [intros _; symmetry; exact Ec | reflexivity].
  - apply eqb_false in Ec.
    destruct (strippedContent lines d' n') as [sl |]; [| discriminate].
    destruct (strippedContent lines n' i) as [sr |]; [| discriminate].
    intros [= <-]. simpl.
    repeat (split; [first [reflexivity | assumption] |]).
    split; [discriminate | intros; congruence].
Qed.

(** A line that starts with none of ['+'], ['-'], ['@'] closes a hunk out
    exactly as an empty line does. *)
Lemma closeHunk_context (lines : list bytes) (ls : list Z) (i : Z) (c : byte)
  (d n : Z) :
  c <> AT ->
  closeHunk lines ls i c d n = closeHunk lines ls i NUL d n.
Proof.
  intros Hc. unfold closeHunk.
  assert (E : Byte.eqb AT c = false).
  { destruct (Byte.eqb AT c) eqn:E; [| reflexivity].
    apply byte_dec_bl in E. congruence. }
  rewrite E. reflexivity.
Qed.

Lemma eqb_neq (a b : byte) : a <> b -> Byte.eqb a b = false.
Proof.
  intros H. destruct (Byte.eqb a b) eqn:E; [| reflexivity].
  apply byte_dec_bl in E. contradiction.
Qed.

Lemma scanLine_context (lines : list bytes) (ls : list Z) (i : Z)
  (line : bytes) (d n : Z) :
  firstChar line <> PLUS -> firstChar line <> MINUS ->
  firstChar line <> AT ->
  scanLine lines ls i line d n = scanLine lines ls i [] d n.
Proof.
  intros HP HM HA. unfold scanLine.
  rewrite (eqb_neq _ _ HP), (eqb_neq _ _ HM).
  rewrite (closeHunk_context lines ls i (firstChar line) d n HA).
  reflexivity.
Qed.

(** ** The segmenter's claims *)

Lemma scanLine_empty (lines : list bytes) (ls : list Z) (i d n : Z) :
  scanLine lines ls i [] d n
  = if negb (d =? -1) || negb (n =? -1)
    then match closeHunk lines ls i NUL d n with
         | Some h => Some (-1, -1, [h])
         | None => None
         end
    else Some (-1, -1, []).
Proof. reflexivity. Qed.

Lemma scanLines_app (lines : list bytes) (ls : list Z) (r1 r2 : list bytes) :
  forall (i d n : Z),
    scanLines lines ls (r1 ++ r2) i d n
    = match scanLines lines ls r1 i d n with
      | Some (d1, n1, hs1) =>
          match scanLines lines ls r2 (i + len r1) d1 n1 with
          | Some (d2, n2, hs2) => Some (d2, n2, hs1 ++ hs2)
          | None => None
          end
      | None => None
      end.
Proof.
  induction r1 as [| line r1' IH]; intros i d n.
  - simpl. change (len (@nil bytes)) with 0. rewrite Z.add_0_r.
    destruct (scanLines lines ls r2 i d n) as [[[d2 n2] hs2] |]; reflexivity.
  - simpl. destruct (scanLine lines ls i line d n) as [[[d1 n1] hs1] |];
      [| reflexivity].
    rewrite IH. rewrite len_cons.
    replace (i + 1 + len r1') with (i + (len r1' + 1)) by lia.
    destruct (scanLines lines ls r1' (i + 1) d1 n1) as [[[d2 n2] hs2] |];
      [| reflexivity].
    destruct (scanLines lines ls r2 (i + (len r1' + 1)) d2 n2)
      as [[[d3 n3] hs3] |]; [| reflexivity].
    rewrite app_assoc. reflexivity.
Qed.

Lemma Split_nl_nonempty (src : bytes) : Split_nl src <> [].
Proof.
  destruct src as [| c t]; simpl; [discriminate |].
  destruct (Byte.eqb c NL); [discriminate |].
  destruct (Split_nl t); discriminate.
Qed.

(** The last line of a newline-terminated input is empty. *)
Lemma Split_nl_trailing_newline (src : bytes) :
  Split_nl (src ++ [NL]) = Split_nl src ++ [[]].
Proof.
  induction src as [| c t IH]; [reflexivity |].
  simpl. rewrite IH.
  destruct (Byte.eqb c NL); [reflexivity |].
  pose proof (Split_nl_nonempty t) as Hne.
  destruct (Split_nl t); [contradiction | reflexivity].
Qed.

(** What the scan does at an empty line, from any state it can be in. *)
Lemma scanLine_at_empty_line (lines pre rest : list bytes) (d n : Z) :
  lines = pre ++ [] :: rest ->
  markers_ok lines (len pre) d n ->
  exists closed,
    scanLine lines (lineStarts_of lines) (len pre) [] d n
    = Some (-1, -1, closed)
    /\ (d = -1 /\ n = -1 -> closed = [])
    /\ (d <> -1 \/ n <> -1 ->
        exists h leftContent rightContent,
          closed = [h]
          /\ hunkLine h = len pre
          /\ index (lineStarts_of lines) (len pre) = Some (endOffsetRight h)
          /\ fine h = Some (leftContent, rightContent)).
Proof.
  intros Hl Hinv.
  assert (Hi : 0 <= len pre < len lines).
  { subst lines. rewrite len_app, len_cons.
    pose proof (len_nonneg pre). pose proof (len_nonneg rest). lia. }
  rewrite scanLine_empty.
  destruct (negb (d =? -1) || negb (n =? -1)) eqn:Ep.
  - apply pending_true in Ep.
    destruct (closeHunk_total lines (len pre) NUL d n Hi Hinv Ep) as [h Hh].
    rewrite Hh. exists [h].
    split; [reflexivity | split].
    + intros [-> ->]. destruct Ep; congruence.
    + intros _.
      destruct (closeHunk_fields _ _ _ _ _ _ _ Hh)
        as (F1 & _ & _ & _ & _ & _ & F7 & F8).
      destruct (fine h) as [[lc rc] |] eqn:Ef.
      * exists h, lc, rc. auto.
      * destruct F8 as [F8 _]. specialize (F8 eq_refl). discriminate.
  - apply pending_false in Ep. exists [].
    split; [reflexivity | split; [reflexivity |]].
    intros [H | H]; destruct Ep; congruence.
Qed.

(** C10: an empty line takes the [default:] case, so it is neither Removed
    nor Added.  Wherever an empty line stands, the scan reaches it, and
    after it both markers are unset; a run pending there is closed out into
    one hunk that ends at this line and gets the fine-grained pass, and the
    outcome is the very one of a context line (one starting with none of
    ['+'], ['-'], ['@']) in its place.  In particular the scan of a
    newline-terminated input, whose last line is empty, ends with no run
    pending. *)
Theorem empty_line_closes_pending_hunk :
  (forall (lines pre rest : list bytes),
      lines = pre ++ [] :: rest ->
      exists d n hs closed,
        scanLines lines (lineStarts_of lines) pre 0 (-1) (-1)
        = Some (d, n, hs)
        /\ scanLine lines (lineStarts_of lines) (len pre) [] d n
           = Some (-1, -1, closed)
        /\ (d = -1 /\ n = -1 -> closed = [])
        /\ (d <> -1 \/ n <> -1 ->
            exists h leftContent rightContent,
              closed = [h]
              /\ hunkLine h = len pre
              /\ index (lineStarts_of lines) (len pre)
                 = Some (endOffsetRight h)
              /\ fine h = Some (leftContent, rightContent))
        /\ (forall line,
               firstChar line <> PLUS -> firstChar line <> MINUS ->
               firstChar line <> AT ->
               scanLine lines (lineStarts_of lines) (len pre) line d n
               = Some (-1, -1, closed)))
  /\ (forall src : bytes,
         exists hs, scan (src ++ [NL]) = Some (-1, -1, hs)).
Proof.
  split.
  - intros lines pre rest Hl.
    destruct (scanLines_inv lines pre [] ([] :: rest) (-1) (-1) Hl
                (markers_ok_unset lines _))
      as (d & n & hs & Hs & Hinv & _).
    change (len (@nil bytes)) with 0 in Hs, Hinv.
    rewrite Z.add_0_l in Hinv.
    destruct (scanLine_at_empty_line lines pre rest d n Hl Hinv)
      as (closed & Hc & Hnone & Hsome).
    exists d, n, hs, closed.
    repeat (split; [assumption |]).
    intros line HP HM HA. rewrite scanLine_context by assumption. exact Hc.
  - intros src. unfold scan. rewrite Split_nl_trailing_newline.
    rewrite scanLines_app.
    set (lines := Split_nl src ++ [[]]).
    destruct (scanLines_inv lines (Split_nl src) [] [[]] (-1) (-1) eq_refl
                (markers_ok_unset lines _))
      as (d & n & hs & Hs & Hinv & _).
    change (len (@nil bytes)) with 0 in Hs, Hinv.
    rewrite Z.add_0_l in *. rewrite Hs.
    destruct (scanLine_at_empty_line lines (Split_nl src) [] d n eq_refl Hinv)
      as (closed & Hc & _).
    simpl scanLines. rewrite Hc. eauto.
Qed.

(** C4, as stated, fails: the removal block of the only hunk of
    ["-a\n@@ -1 +1 @@"] starts with the line ["-a"], whose first byte is
    ['-'] and not ['@'], yet the hunk gets no fine-grained pass. *)
Lemma removed_line_before_header_gets_no_fine_pass :
  segment (lit "-a" ++ [NL] ++ lit "@@ -1 +1 @@") = Some [hunk_before_header]
  /\ fine hunk_before_header = None
  /\ index (Split_nl (lit "-a" ++ [NL] ++ lit "@@ -1 +1 @@"))
       (hunkDel hunk_before_header) = Some (lit "-a")
  /\ firstChar (lit "-a") = MINUS
  /\ AT <> MINUS.
Proof. repeat split; try reflexivity. discriminate. Qed.

(** C4, amended: every hunk the scan closes out gets its two coarse
    wrappers; it is left without the fine-grained pass exactly when the line
    that closes it out (the line after the run, which starts with neither
    ['+'] nor ['-']) starts with ['@']; the first line of its removal block
    starts with ['-'] or ['+'], never with ['@']. *)
Theorem fine_pass_skipped_iff_closing_line_starts_with_at :
  forall (src : bytes),
    exists hs,
      segment src = Some hs
      /\ forall h, In h hs ->
           exists closing first,
             index (Split_nl src) (hunkLine h) = Some closing
             /\ firstChar closing <> PLUS /\ firstChar closing <> MINUS
             /\ (fine h = None <-> firstChar closing = AT)
             /\ index (Split_nl src) (hunkDel h) = Some first
             /\ (firstChar first = MINUS \/ firstChar first = PLUS)
             /\ (forall HighlightedDiffFunc,
                    exists fineAnns,
                      hunkAnns HighlightedDiffFunc h
                      = coarseLeft h :: coarseRight h :: fineAnns
                      /\ (fine h = None -> fineAnns = [])).
Proof.
  intros src.
  destruct (segment_total src) as (hs & Hseg & Hall).
  exists hs. split; [exact Hseg |]. intros h Hin.
  rewrite Forall_forall in Hall.
  destruct (Hall h Hin)
    as (i & line & d & n & Hi & Hline & HP & HM & Hinv & Hpend & Hclose).
  destruct (closeHunk_fields _ _ _ _ _ _ _ Hclose)
    as (F1 & F2 & _ & _ & _ & _ & _ & F8).
  destruct Hinv as (Hd & Hn & _).
  assert (Hfirst : exists first,
             index (Split_nl src) (hunkDel h) = Some first
             /\ (firstChar first = MINUS \/ firstChar first = PLUS)).
  { rewrite F2. destruct (Z.eqb_spec d (-1)) as [Ed | Ed].
    - destruct Hn as [Hn | [_ [t Ht]]]; [destruct Hpend; congruence |].
      exists (PLUS :: t). auto.
    - destruct Hd as [Hd | [_ [t Ht]]]; [congruence |].
      exists (MINUS :: t). auto. }
  destruct Hfirst as (first & Hf1 & Hf2).
  exists line, first. rewrite F1.
  repeat (split; [assumption |]).
  intros HDF. unfold hunkAnns. simpl app.
  destruct (fine h) as [[lc rc] |].
  - eexists. split; [reflexivity | discriminate].
  - exists []. split; reflexivity.
Qed.

(** *** Offsets of the coarse wrappers *)

Lemma index_cons_0 {A} (x : A) (l : list A) : index (x :: l) 0 = Some x.
Proof. reflexivity. Qed.

Lemma index_cons_pos {A} (x : A) (l : list A) (k : Z) :
  0 < k -> index (x :: l) k = index l (k - 1).
Proof.
  intros Hk. unfold index.
  destruct (Z.ltb_spec k 0); [lia |].
  destruct (Z.ltb_spec (k - 1) 0); [lia |].
  replace (Z.to_nat k) with (S (Z.to_nat (k - 1))) by lia. reflexivity.
Qed.

Lemma Join_nl_cons (l l' : bytes) (ls : list bytes) :
  Join_nl (l :: l' :: ls) = l ++ NL :: Join_nl (l' :: ls).
Proof. reflexivity. Qed.

Lemma Join_Split_nl (src : bytes) : Join_nl (Split_nl src) = src.
Proof.
  induction src as [| c t IH]; [reflexivity |].
  simpl Split_nl. pose proof (Split_nl_nonempty t) as Hne.
  destruct (Byte.eqb c NL) eqn:E.
  - apply byte_dec_bl in E. subst c.
    destruct (Split_nl t) as [| l ls]; [contradiction |].
    rewrite Join_nl_cons, IH. reflexivity.
  - destruct (Split_nl t) as [| l ls]; [contradiction |].
    destruct ls as [| l' ls']; simpl in *; rewrite IH; reflexivity.
Qed.

(** Every entry of [lineStarts] is an offset into the joined lines. *)
Lemma lineStarts_from_bounds (lines : list bytes) :
  forall (offset k v : Z),
    index (lineStarts_from lines offset) k = Some v ->
    offset <= v <= offset + len (Join_nl lines).
Proof.
  induction lines as [| l ls IH]; intros offset k v Hk;
    [unfold index in Hk; destruct (k <? 0), (Z.to_nat k); discriminate |].
  pose proof (index_bounds _ _ _ Hk) as Hb.
  pose proof (len_nonneg (Join_nl (l :: ls))).
  destruct (Z.eq_dec k 0) as [-> | Hne].
  - simpl lineStarts_from in Hk. rewrite index_cons_0 in Hk.
    injection Hk as <-. lia.
  - simpl lineStarts_from in Hk. rewrite index_cons_pos in Hk by lia.
    destruct ls as [| l' ls'];
      [unfold index in Hk; simpl in Hk;
       destruct (k - 1 <? 0), (Z.to_nat (k - 1)); discriminate |].
    apply IH in Hk. rewrite Join_nl_cons, len_app, len_cons.
    pose proof (len_nonneg l). lia.
Qed.

(** Later lines start at larger offsets. *)
Lemma lineStarts_from_increasing (lines : list bytes) :
  forall (offset k1 k2 v1 v2 : Z),
    0 <= k1 < k2 ->
    index (lineStarts_from lines offset) k1 = Some v1 ->
    index (lineStarts_from lines offset) k2 = Some v2 ->
    v1 < v2.
Proof.
  induction lines as [| l ls IH]; intros offset k1 k2 v1 v2 Hk H1 H2;
    [unfold index in H1; destruct (k1 <? 0), (Z.to_nat k1); discriminate |].
  simpl lineStarts_from in H1, H2.
  rewrite index_cons_pos in H2 by lia.
  destruct (Z.eq_dec k1 0) as [-> | Hne].
  - rewrite index_cons_0 in H1. injection H1 as <-.
    apply lineStarts_from_bounds in H2. pose proof (len_nonneg l). lia.
  - rewrite index_cons_pos in H1 by lia.
    apply (IH (offset + (len l + 1)) (k1 - 1) (k2 - 1));
      [lia | assumption | assumption].
Qed.

(** The offsets of every hunk are positions of the source buffer; the
    addition side is never inverted, and the removal side is inverted
    exactly when the first Added line of the run precedes its first Removed
    line. *)
Lemma coarse_wrapper_offsets (src : bytes) (hs : list ChangeHunk)
  (h : ChangeHunk) :
  segment src = Some hs ->
  In h hs ->
  (0 <= Start (coarseLeft h) <= len src
   /\ 0 <= End_ (coarseLeft h) <= len src
   /\ 0 <= Start (coarseRight h) <= len src
   /\ 0 <= End_ (coarseRight h) <= len src)
  /\ Start (coarseRight h) <= End_ (coarseRight h)
  /\ (hunkDel h <= hunkIns h -> Start (coarseLeft h) <= End_ (coarseLeft h))
  /\ (hunkIns h < hunkDel h -> End_ (coarseLeft h) < Start (coarseLeft h)).
Proof.
  intros Hseg Hin.
  destruct (segment_total src) as (hs' & Hseg' & Hall).
  rewrite Hseg in Hseg'. injection Hseg' as <-.
  rewrite Forall_forall in Hall.
  destruct (Hall h Hin)
    as (i & line & d & n & Hi & Hline & HP & HM & Hinv & Hpend & Hclose).
  destruct (closeHunk_fields _ _ _ _ _ _ _ Hclose)
    as (F1 & F2 & F3 & F4 & F5 & F6 & F7 & _).
  unfold coarseLeft, coarseRight. cbn [Start End_].
  unfold lineStarts_of in *.
  pose proof (lineStarts_from_bounds _ _ _ _ F4) as B4.
  pose proof (lineStarts_from_bounds _ _ _ _ F5) as B5.
  pose proof (lineStarts_from_bounds _ _ _ _ F7) as B7.
  rewrite Join_Split_nl in B4, B5, B7. rewrite F6.
  pose proof (index_bounds _ _ _ F4) as I4.
  pose proof (index_bounds _ _ _ F5) as I5.
  assert (Hni : hunkIns h <= i).
  { rewrite F3. destruct Hinv as (Hd & Hn & _).
    destruct (Z.eqb_spec d (-1)); [| destruct (Z.eqb_spec n (-1))];
      destruct Hn as [Hn | [Hn _]]; destruct Hpend; lia. }
  split; [lia |]. split; [| split].
  - destruct (Z.eq_dec (hunkIns h) i) as [E | E].
    + rewrite E in F5. rewrite F5 in F7. injection F7 as <-. lia.
    + pose proof (lineStarts_from_increasing _ _ _ _ _ _
                    (conj (proj1 I5) (ltac:(lia) : hunkIns h < i)) F5 F7).
      lia.
  - intros Hle. destruct (Z.eq_dec (hunkDel h) (hunkIns h)) as [E | E].
    + rewrite E in F4. rewrite F4 in F5. injection F5 as <-. lia.
    + pose proof (lineStarts_from_increasing _ _ _ _ _ _
                    (conj (proj1 I4) (ltac:(lia) : hunkDel h < hunkIns h))
                    F4 F5).
      lia.
  - intros Hlt.
    apply (lineStarts_from_increasing _ _ _ _ _ _
             (conj (proj1 I5) Hlt) F5 F4).
Qed.

(** C5, evaluated where the code breaks it: in ["+a\n-b\n"] an Added line
    precedes a Removed line of the same run, and the one hunk closed out has
    its removal side from offset 3 (the start of line 1) to offset 0 (the
    start of line 0), so the coarse wrapper of the removal side has
    [End < Start]. *)
Theorem added_before_removed_inverts_removal_wrapper :
  exists h,
    segment (Join_nl [lit "+a"; lit "-b"; []]) = Some [h]
    /\ hunkDel h = 1 /\ hunkIns h = 0
    /\ Start (coarseLeft h) = 3 /\ End_ (coarseLeft h) = 0
    /\ End_ (coarseLeft h) < Start (coarseLeft h)
    /\ Start (coarseRight h) = 0 /\ End_ (coarseRight h) = 6.
Proof. eexists. repeat split. Qed.

(** A last line that starts with ['+'] or ['-'] closes nothing out: the
    hunks of the whole scan are those of the lines before it, and the loop
    ends with a marker set. *)
Lemma scan_ends_pending_after_marked_last_line (lines pre : list bytes)
  (c : byte) (t : bytes) :
  lines = pre ++ [c :: t] ->
  c = PLUS \/ c = MINUS ->
  exists d n d' n' hs,
    scanLines lines (lineStarts_of lines) pre 0 (-1) (-1) = Some (d, n, hs)
    /\ scanLines lines (lineStarts_of lines) lines 0 (-1) (-1)
       = Some (d', n', hs)
    /\ (d' <> -1 \/ n' <> -1).
Proof.
  intros Hl Hc.
  destruct (scanLines_inv lines pre [] [c :: t] (-1) (-1) Hl
              (markers_ok_unset lines _))
    as (d & n & hs & Hs & Hinv & _).
  change (len (@nil bytes)) with 0 in Hs, Hinv. rewrite Z.add_0_l in Hinv.
  pose proof (len_nonneg pre) as Hp.
  assert (Hfull : scanLines lines (lineStarts_of lines) lines 0 (-1) (-1)
                  = scanLines lines (lineStarts_of lines) (pre ++ [c :: t])
                      0 (-1) (-1))
    by (rewrite <- Hl; reflexivity).
  rewrite scanLines_app, Hs, Z.add_0_l in Hfull.
  destruct Hinv as (Hd & Hn & _).
  destruct Hc as [-> | ->].
  - exists d, n, d, (if n =? -1 then len pre else n), hs.
    split; [assumption | split].
    + rewrite Hfull. simpl. rewrite app_nil_r. reflexivity.
    + right. destruct (Z.eqb_spec n (-1)); [lia | assumption].
  - exists d, n, (if d =? -1 then len pre else d), n, hs.
    split; [assumption | split].
    + rewrite Hfull. simpl. rewrite app_nil_r. reflexivity.
    + left. destruct (Z.eqb_spec d (-1)); [lia | assumption].
Qed.

(** C6, evaluated where the code breaks it: the last line of ["-a\n+b"] is
    an Added line; the loop ends with both markers still set ([lastDel] 0,
    [lastIns] 1) and nothing after the loop looks at them, so no hunk is
    closed out and no coarse wrapper is appended, whatever the fine-grained
    highlighter is. *)
Theorem pending_run_at_end_of_input_is_dropped :
  scan (Join_nl [lit "-a"; lit "+b"]) = Some (0, 1, [])
  /\ segment (Join_nl [lit "-a"; lit "+b"]) = Some []
  /\ (forall HighlightedDiffFunc hunks,
         segment (Join_nl [lit "-a"; lit "+b"]) = Some hunks ->
         flat_map (hunkAnns HighlightedDiffFunc) hunks = []).
Proof.
  split; [reflexivity | split; [reflexivity |]].
  intros HDF hunks [= <-]. reflexivity.
Qed.

(** C7: the scan of the lines ["-a"], ["-b"], ["+c"], ["+d"], ["e"] closes
    out exactly one hunk; its old range is [0, 6), the bytes of lines 0 and
    1 with their newlines, its new range is [6, 12), the bytes of lines 2
    and 3 with their newlines, and line 4 starts at offset 12, outside both.
    The scan of ["-a"], ["-b"], ["e"] closes out exactly one hunk, with old
    range [0, 6) over lines 0 and 1 and the empty new range [6, 6). *)
Theorem segmentation_examples :
  Split_nl (Join_nl change_lines) = change_lines
  /\ lineStarts_of change_lines = [0; 3; 6; 9; 12]
  /\ (exists h,
         segment (Join_nl change_lines) = Some [h]
         /\ old_range h = (0, 6) /\ new_range h = (6, 12)
         /\ slice (Join_nl change_lines) 0 6
            = lit "-a" ++ [NL] ++ lit "-b" ++ [NL]
         /\ slice (Join_nl change_lines) 6 12
            = lit "+c" ++ [NL] ++ lit "+d" ++ [NL]
         /\ slice (Join_nl change_lines) 12 (len (Join_nl change_lines))
            = lit "e")
  /\ Split_nl (Join_nl deletion_lines) = deletion_lines
  /\ lineStarts_of deletion_lines = [0; 3; 6]
  /\ (exists h,
         segment (Join_nl deletion_lines) = Some [h]
         /\ old_range h = (0, 6) /\ new_range h = (6, 6)
         /\ slice (Join_nl deletion_lines) 0 6
            = lit "-a" ++ [NL] ++ lit "-b" ++ [NL]
         /\ slice (Join_nl deletion_lines) 6 6 = []).
Proof.
  repeat split; try reflexivity; eexists; repeat split.
Qed.

(** ** The language tag *)

Lemma bytes_eqb_true (x y : bytes) : bytes_eqb x y = true <-> x = y.
Proof.
  unfold bytes_eqb. destruct (list_eq_dec byte_eq_dec x y); split;
    congruence.
Qed.

Lemma IndexAny_tab_space_range (s : bytes) :
  IndexAny_tab_space s = -1 \/ 0 <= IndexAny_tab_space s < len s.
Proof.
  induction s as [| c t IH]; simpl; [left; reflexivity |].
  rewrite len_cons. pose proof (len_nonneg t).
  destruct (is_tab_or_space c); [right; lia |].
  destruct (Z.ltb_spec (IndexAny_tab_space t) 0); [left; reflexivity |].
  right. lia.
Qed.

Lemma slice_0_cons {A} (c : A) (t : list A) (k : Z) :
  0 <= k -> slice (c :: t) 0 (k + 1) = c :: slice t 0 k.
Proof.
  intros Hk. unfold slice. rewrite !Z.sub_0_r. simpl skipn.
  replace (Z.to_nat (k + 1)) with (S (Z.to_nat k)) by lia. reflexivity.
Qed.

Lemma slice_to_first_whitespace (info : bytes) :
  0 <= IndexAny_tab_space info ->
  slice info 0 (IndexAny_tab_space info) = spec_language_tag info.
Proof.
  induction info as [| c t IH]; simpl; [lia |].
  destruct (is_tab_or_space c); [intros _; apply slice_empty |].
  destruct (Z.ltb_spec (IndexAny_tab_space t) 0) as [Hn | Hp]; [lia |].
  intros _. rewrite slice_0_cons by assumption. rewrite IH by assumption.
  reflexivity.
Qed.

(** With a tab or a space in the info string, [findLang] is the prefix
    before the first of them, as the specification has it. *)
Lemma findLang_with_whitespace (info : bytes) :
  0 <= IndexAny_tab_space info ->
  findLang info = spec_language_tag info.
Proof.
  intros H. unfold findLang.
  destruct (Z.ltb_spec (IndexAny_tab_space info) 0) as [Hn | _]; [lia |].
  apply slice_to_first_whitespace. assumption.
Qed.

(** Without one, [findLang] is empty, while the tag of the specification
    is the whole info string. *)
Lemma findLang_without_whitespace (info : bytes) :
  forallb (fun c => negb (is_tab_or_space c)) info = true ->
  findLang info = [] /\ spec_language_tag info = info.
Proof.
  intros H.
  assert (E : IndexAny_tab_space info = -1 /\ spec_language_tag info = info).
  { induction info as [| c t IH]; [split; reflexivity |].
    simpl in *. apply andb_prop in H. destruct H as [Hc Ht].
    destruct (is_tab_or_space c); [discriminate |].
    destruct (IH Ht) as [-> ->]. split; reflexivity. }
  destruct E as [E1 E2]. unfold findLang. rewrite E1. auto.
Qed.

(** ** The renderer *)

Section RendererFacts.

Variable html_Parse : bytes -> option HtmlNode.
Variable html_UnescapeString : bytes -> bytes.
Variable sanitized_anchor_name_Create : bytes -> bytes.
Variable highlight_go_Print : bytes -> option bytes.
Variable highlight_diff_Annotate : bytes -> option (list Annotation).
Variable HighlightedDiffFunc :
  bytes -> bytes -> Z * Z -> list Annotation * list Annotation.
Variable sort_Sort : list Annotation -> list Annotation.
Variable annotate_Annotate : bytes -> list Annotation -> option bytes.

Local Notation heading' :=
  (heading html_Parse html_UnescapeString sanitized_anchor_name_Create).
Local Notation highlightCode' :=
  (highlightCode highlight_go_Print highlight_diff_Annotate
     HighlightedDiffFunc sort_Sort annotate_Annotate).
Local Notation codeblock' :=
  (codeblock highlight_go_Print highlight_diff_Annotate
     HighlightedDiffFunc sort_Sort annotate_Annotate).
Local Notation RenderNode' :=
  (RenderNode html_Parse html_UnescapeString sanitized_anchor_name_Create
     highlight_go_Print highlight_diff_Annotate
     HighlightedDiffFunc sort_Sort annotate_Annotate).
Local Notation HighlighterError' :=
  (HighlighterError highlight_go_Print highlight_diff_Annotate
     HighlightedDiffFunc sort_Sort annotate_Annotate).

(** What [heading] writes: the contract's markup with nothing between the
    anchor element and the closing tag, after a newline when the node has a
    previous sibling, and followed by a newline. *)
Lemma heading_output (w : Writer) (node : Node) (entering : bool) :
  heading' w node entering
  = (w ++ (match Prev node with Some _ => [NL] | None => [] end)
       ++ spec_heading_markup (Level node)
            (sanitized_anchor_name_Create
               (headingTextContent html_Parse html_UnescapeString
                  (Literal node)))
            []
       ++ [NL],
     GoToNext).
Proof.
  unfold heading, spec_heading_markup, spec_heading_anchor, Write.
  f_equal. destruct (Prev node); repeat rewrite <- app_assoc;
    repeat rewrite app_nil_l; reflexivity.
Qed.

Lemma highlightCode_total (src lang : bytes) :
  exists hc ok, highlightCode' src lang = Some (hc, ok).
Proof.
  unfold highlightCode.
  destruct (bytes_eqb lang (lit "Go") || bytes_eqb lang (lit "Go-unformatted")).
  { destruct (highlight_go_Print src); eauto. }
  destruct (bytes_eqb lang (lit "diff")); [| eauto].
  destruct (highlight_diff_Annotate src) as [anns |]; [| eauto].
  destruct (segment_total src) as (hs & -> & _).
  destruct (annotate_Annotate src _); eauto.
Qed.

Lemma highlightCode_unrecognized (src lang : bytes) :
  recognized lang = false -> highlightCode' src lang = Some ([], false).
Proof.
  unfold recognized, highlightCode. intros H.
  apply orb_false_elim in H. destruct H as [H ->]. rewrite H. reflexivity.
Qed.

Lemma highlightCode_error (src lang : bytes) :
  HighlighterError' src lang -> highlightCode' src lang = Some ([], false).
Proof.
  assert (Hd1 : bytes_eqb (lit "diff") (lit "Go") = false) by reflexivity.
  assert (Hd2 : bytes_eqb (lit "diff") (lit "Go-unformatted") = false)
    by reflexivity.
  unfold highlightCode.
  intros [[-> | ->] Hp | -> Ha | anns hunks -> Ha Hs Hr].
  - rewrite (proj2 (bytes_eqb_true _ _) eq_refl). simpl orb.
    rewrite Hp. reflexivity.
  - rewrite (proj2 (bytes_eqb_true (lit "Go-unformatted") _) eq_refl).
    rewrite orb_true_r. rewrite Hp. reflexivity.
  - rewrite Hd1, Hd2, (proj2 (bytes_eqb_true (lit "diff") _) eq_refl).
    simpl orb. cbv iota. rewrite Ha. reflexivity.
  - rewrite Hd1, Hd2, (proj2 (bytes_eqb_true (lit "diff") _) eq_refl).
    simpl orb. cbv iota. rewrite Ha, Hs, Hr. reflexivity.
Qed.

(** What [codeblock] writes, for a node that has a parent: the wrapper the
    tag selects around the highlighted code, or around the escaped source
    when [highlightCode] does not return [ok]. *)
Lemma codeblock_output (w : Writer) (node : Node) (entering : bool)
  (p : NodeType) (hc : bytes) (ok : bool) :
  Parent node = Some p ->
  highlightCode' (Literal node) (findLang (Info node)) = Some (hc, ok) ->
  codeblock' w node entering
  = Some (w ++ wrapperOpen (findLang (Info node))
            ++ (if ok then hc else spec_escape (Literal node))
            ++ wrapperClose (findLang (Info node)),
          GoToNext).
Proof.
  intros Hp Hh. unfold codeblock. rewrite Hh, Hp. unfold Write.
  destruct ok.
  - rewrite <- !app_assoc. reflexivity.
  - rewrite attrEscape_spec_escape. rewrite <- !app_assoc. reflexivity.
Qed.

Lemma wrapper_of_nonempty_tag (lang : bytes) :
  lang <> [] ->
  wrapperOpen lang = litq "<div class='highlight highlight-" ++ lang ++ litq "'>"
  /\ wrapperClose lang = lit "</pre></div>".
Proof.
  intros H. unfold wrapperOpen, wrapperClose.
  destruct (Z.eqb_spec (len lang) 0) as [E | E]; [| auto].
  apply len_nil_inv in E. contradiction.
Qed.

Lemma HighlighterError_tag_nonempty (src lang : bytes) :
  HighlighterError' src lang -> lang <> [].
Proof. intros [[-> | ->] _ | -> _ | ? ? -> _ _ _]; discriminate. Qed.

(** C8: when the highlighter of the block's language returns an error,
    [codeblock] (and [RenderNode] on a code block) still returns, with
    [GoToNext], having written the HTML-escaped source between the opening
    and the closing of the wrapper that the tag selects, the very wrapper a
    successful highlighting is written in. *)
Theorem highlighter_error_falls_back_to_escaped_source :
  forall (w : Writer) (node : Node) (entering : bool) (p : NodeType),
    Parent node = Some p ->
    HighlighterError' (Literal node) (findLang (Info node)) ->
    codeblock' w node entering
    = Some (w ++ wrapperOpen (findLang (Info node))
              ++ spec_escape (Literal node)
              ++ wrapperClose (findLang (Info node)),
            GoToNext)
    /\ (Type_ node = CodeBlock ->
        RenderNode' w node entering = codeblock' w node entering)
    /\ wrapperOpen (findLang (Info node))
       = litq "<div class='highlight highlight-" ++ findLang (Info node)
         ++ litq "'>"
    /\ wrapperClose (findLang (Info node)) = lit "</pre></div>"
    /\ (forall (node2 : Node) (hc : bytes),
           Parent node2 = Some p ->
           Info node2 = Info node ->
           highlightCode' (Literal node2) (findLang (Info node2))
           = Some (hc, true) ->
           codeblock' w node2 entering
           = Some (w ++ wrapperOpen (findLang (Info node)) ++ hc
                     ++ wrapperClose (findLang (Info node)),
                   GoToNext)).
Proof.
  intros w node entering p Hp Herr.
  pose proof (highlightCode_error _ _ Herr) as Hh.
  pose proof (HighlighterError_tag_nonempty _ _ Herr) as Hne.
  destruct (wrapper_of_nonempty_tag _ Hne) as [Ho Hc].
  split; [exact (codeblock_output w node entering p [] false Hp Hh) |].
  split; [intros Ht; unfold RenderNode; rewrite Ht; reflexivity |].
  split; [exact Ho | split; [exact Hc |]].
  intros node2 hc Hp2 Hi Hh2. rewrite <- Hi.
  exact (codeblock_output w node2 entering p hc true Hp2 Hh2).
Qed.

(** C2, amended: the wrapper follows the emptiness of the tag that
    [findLang] extracts, not its recognition.  With an empty tag the block
    is exactly the escaped source in the plain [pre] and [code] wrapper;
    with a non-empty tag, recognized or not, what is written begins with the
    opening [div] of class [highlight highlight-{lang}] and ends with the
    body followed by the closing [pre] and [div] tags, where the body is the
    annotated code when highlighting succeeds and the escaped source
    otherwise. *)
Theorem codeblock_wrapper_follows_tag_emptiness :
  forall (w : Writer) (node : Node) (entering : bool) (p : NodeType),
    Parent node = Some p ->
    exists hc ok out,
      highlightCode' (Literal node) (findLang (Info node)) = Some (hc, ok)
      /\ codeblock' w node entering = Some (w ++ out, GoToNext)
      /\ (findLang (Info node) = [] ->
          out = spec_codeblock_markup false [] (spec_escape (Literal node)))
      /\ (findLang (Info node) <> [] ->
          (exists rest,
              out = litq "<div class='highlight highlight-"
                    ++ findLang (Info node) ++ litq "'>" ++ rest)
          /\ (exists front,
                 out = front
                       ++ (if ok then hc else spec_escape (Literal node))
                       ++ lit "</pre></div>")).
Proof.
  intros w node entering p Hp.
  destruct (highlightCode_total (Literal node) (findLang (Info node)))
    as (hc & ok & Hh).
  exists hc, ok. eexists. split; [exact Hh |].
  split; [exact (codeblock_output w node entering p hc ok Hp Hh) |].
  split.
  - intros E. rewrite E in Hh |- *.
    rewrite highlightCode_unrecognized in Hh by reflexivity.
    injection Hh as <- <-. reflexivity.
  - intros Hne. destruct (wrapper_of_nonempty_tag _ Hne) as [-> ->].
    split.
    + eexists. rewrite <- !app_assoc. reflexivity.
    + eexists. reflexivity.
Qed.

End RendererFacts.

Lemma highlighter_error_falls_back_to_escaped_source_witness :
  codeblock failing_Print failing_diff_Annotate empty_HighlightedDiffFunc
    identity_Sort failing_Annotate []
    (codeBlockNode (lit "Go x") (lit "a<b")) true
  = Some (litq "<div class='highlight highlight-Go'>a&lt;b</pre></div>",
          GoToNext).
Proof.
  exact (proj1 (highlighter_error_falls_back_to_escaped_source
                  failing_Parse identity_Unescape identity_Create
                  failing_Print failing_diff_Annotate
                  empty_HighlightedDiffFunc identity_Sort failing_Annotate
                  [] (codeBlockNode (lit "Go x") (lit "a<b")) true Document
                  eq_refl
                  (GoPrintError failing_Print failing_diff_Annotate
                     empty_HighlightedDiffFunc identity_Sort failing_Annotate
                     (lit "a<b") (lit "Go") (or_introl eq_refl) eq_refl))).
Defined.

(** C2, as stated, fails: the tag ["python"] of the info string
    ["python x"] is no case of [highlightCode], yet the block is not
    rendered in the plain [pre] and [code] wrapper but in the [div] of
    class [highlight highlight-python], whatever the collaborators are. *)
Lemma unrecognized_tag_is_wrapped_in_div :
  findLang (lit "python x") = lit "python"
  /\ recognized (lit "python") = false
  /\ (forall Print Annotate_diff Fine Sort Annotate,
         codeblock Print Annotate_diff Fine Sort Annotate []
           (codeBlockNode (lit "python x") (lit "a<b")) true
         = Some (litq "<div class='highlight highlight-python'>a&lt;b</pre></div>",
                 GoToNext))
  /\ spec_codeblock_markup false (lit "python") (spec_escape (lit "a<b"))
     = lit "<pre><code>a&lt;b</code></pre>"
  /\ litq "<div class='highlight highlight-python'>a&lt;b</pre></div>"
     <> lit "<pre><code>a&lt;b</code></pre>".
Proof.
  repeat split; try reflexivity. discriminate.
Qed.

Lemma codeblock_wrapper_follows_tag_emptiness_witness :
  exists out,
    codeblock failing_Print failing_diff_Annotate empty_HighlightedDiffFunc
      identity_Sort failing_Annotate []
      (codeBlockNode (lit "python x") (lit "a<b")) true
    = Some ([] ++ out, GoToNext)
    /\ exists rest,
         out = litq "<div class='highlight highlight-" ++ lit "python"
               ++ litq "'>" ++ rest.
Proof.
  destruct (codeblock_wrapper_follows_tag_emptiness
              failing_Print failing_diff_Annotate empty_HighlightedDiffFunc
              identity_Sort failing_Annotate
              [] (codeBlockNode (lit "python x") (lit "a<b")) true Document
              eq_refl)
    as (hc & ok & out & _ & Hout & _ & Hdiv).
  exists out. split; [exact Hout |].
  destruct Hdiv as [Hrest _]; [discriminate | exact Hrest].
Defined.

(** C1, evaluated where the code breaks it: for a first heading of level 1
    with inline content ["Hello"], whatever the parser and the slug
    generator are, [heading] writes the anchor element and right after it
    the closing tag (and a newline), while the contract has the inline
    content ["Hello"] between the two. *)
Theorem heading_drops_inline_content :
  forall (html_Parse : bytes -> option HtmlNode)
         (html_UnescapeString Create : bytes -> bytes),
    heading html_Parse html_UnescapeString Create []
      (headingNode 1 (lit "Hello")) true
    = (spec_heading_anchor 1
         (Create (headingTextContent html_Parse html_UnescapeString
                    (lit "Hello")))
       ++ lit "</h1>" ++ [NL],
       GoToNext)
    /\ spec_heading_markup 1
         (Create (headingTextContent html_Parse html_UnescapeString
                    (lit "Hello")))
         (lit "Hello")
       = spec_heading_anchor 1
           (Create (headingTextContent html_Parse html_UnescapeString
                      (lit "Hello")))
         ++ lit "Hello</h1>".
Proof.
  intros P U C. split.
  - rewrite heading_output. unfold spec_heading_markup, headingNode.
    cbn [Prev Level Literal]. rewrite <- !app_assoc. reflexivity.
  - reflexivity.
Qed.

(** C3, evaluated where the code breaks it: the info string ["diff"] has no
    whitespace, and [findLang] returns the empty tag for it, not the whole
    string as the specification has it and as [appendLanguageAttr] does; so
    a block fenced with ["diff"], a language [highlightCode] has a case for,
    is written as escaped source in the plain [pre] and [code] wrapper. *)
Theorem findLang_is_empty_without_whitespace :
  IndexAny_tab_space (lit "diff") = -1
  /\ findLang (lit "diff") = []
  /\ spec_language_tag (lit "diff") = lit "diff"
  /\ recognized (lit "diff") = true
  /\ appendLanguageAttr [] (lit "diff")
     = Some [litq "class='highlight"; litq "highlight-diff'"]
  /\ (forall Print Annotate_diff Fine Sort Annotate,
         codeblock Print Annotate_diff Fine Sort Annotate []
           (codeBlockNode (lit "diff") (Join_nl [lit "-a<"; lit "+b"; []]))
           true
         = Some (lit "<pre><code>" ++ lit "-a&lt;" ++ [NL] ++ lit "+b" ++ [NL]
                   ++ lit "</code></pre>",
                 GoToNext)).
Proof.
  repeat split; reflexivity.
Qed.

(** * Further properties *)

(** ** Escaping *)

Lemma spec_escape_app (a b : bytes) :
  spec_escape (a ++ b) = spec_escape a ++ spec_escape b.
Proof. unfold spec_escape. rewrite map_app, concat_app. reflexivity. Qed.

Lemma spec_escape_cons (c : byte) (t : bytes) :
  spec_escape (c :: t) = spec_escape_byte c ++ spec_escape t.
Proof. reflexivity. Qed.

(** The five shapes of the escape of a byte. *)
Lemma spec_escape_byte_cases (c : byte) :
  (c = QUOTE /\ spec_escape_byte c = lit "&quot;")
  \/ (c = AMP /\ spec_escape_byte c = lit "&amp;")
  \/ (c = LT /\ spec_escape_byte c = lit "&lt;")
  \/ (c = GT /\ spec_escape_byte c = lit "&gt;")
  \/ (plain_byte c = true /\ c <> AMP /\ c <> QUOTE /\ c <> LT /\ c <> GT
      /\ spec_escape_byte c = [c]).
Proof.
  destruct c;
    first [ left; split; reflexivity
          | right; left; split; reflexivity
          | right; right; left; split; reflexivity
          | right; right; right; left; split; reflexivity
          | right; right; right; right;
            repeat (split; [first [reflexivity | discriminate] |]);
            reflexivity ].
Qed.

(** X1: escaping composes over concatenation: escaping [a ++ b] is escaping
    [a] and then, on the same writer, [b]. *)
Theorem attrEscape_app :
  forall (w : Writer) (a b : bytes),
    attrEscape w (a ++ b) = attrEscape (attrEscape w a) b.
Proof.
  intros w a b. rewrite !attrEscape_spec_escape, spec_escape_app.
  apply app_assoc.
Qed.

Lemma spec_escape_byte_safe (c : byte) :
  Forall (fun x => x <> LT /\ x <> GT /\ x <> QUOTE) (spec_escape_byte c).
Proof.
  destruct (spec_escape_byte_cases c)
    as [[_ ->] | [[_ ->] | [[_ ->] | [[_ ->] | (_ & _ & H1 & H2 & H3 & ->)]]]];
    repeat constructor; try discriminate; assumption.
Qed.

(** X2: whatever the source, the text [attrEscape] writes holds no ['<'], no
    ['>'] and no double quote. *)
Theorem attrEscape_writes_no_markup_byte :
  forall (src : bytes),
    Forall (fun x => x <> LT /\ x <> GT /\ x <> QUOTE) (attrEscape [] src).
Proof.
  intros src. rewrite attrEscape_spec_escape. simpl app.
  induction src as [| c t IH]; [constructor |].
  rewrite spec_escape_cons. apply Forall_app. split; [| exact IH].
  apply spec_escape_byte_safe.
Qed.

Lemma spec_escape_injective (a : bytes) :
  forall b, spec_escape a = spec_escape b -> a = b.
Proof.
  induction a as [| c a' IH]; intros [| d b'] H.
  - reflexivity.
  - rewrite spec_escape_cons in H.
    destruct (spec_escape_byte_cases d)
      as [[_ E] | [[_ E] | [[_ E] | [[_ E] | (_ & _ & _ & _ & _ & E)]]]];
      rewrite E in H; discriminate H.
  - rewrite spec_escape_cons in H.
    destruct (spec_escape_byte_cases c)
      as [[_ E] | [[_ E] | [[_ E] | [[_ E] | (_ & _ & _ & _ & _ & E)]]]];
      rewrite E in H; discriminate H.
  - rewrite !spec_escape_cons in H.
    destruct (spec_escape_byte_cases c)
      as [[-> Ec] | [[-> Ec] | [[-> Ec] | [[-> Ec] | (_ & Nc & _ & _ & _ & Ec)]]]];
      destruct (spec_escape_byte_cases d)
        as [[-> Ed] | [[-> Ed] | [[-> Ed] | [[-> Ed] | (_ & Nd & _ & _ & _ & Ed)]]]];
      rewrite ?Ec, ?Ed in H;
      try discriminate H;
      try (apply app_inv_head in H; f_equal; apply IH; exact H);
      try (injection H as H0 H; exfalso;
           first [apply Nc; exact H0 | apply Nd; symmetry; exact H0]).
    injection H as -> H. f_equal. apply IH. exact H.
Qed.

(** X3: escaping loses nothing: two sources that [attrEscape] writes the
    same text for are the same source. *)
Theorem attrEscape_injective :
  forall (a b : bytes), attrEscape [] a = attrEscape [] b -> a = b.
Proof.
  intros a b. rewrite !attrEscape_spec_escape. simpl app.
  apply spec_escape_injective.
Qed.

Lemma attrEscape_injective_witness :
  lit "a<b" = lit "a<b".
Proof.
  exact (attrEscape_injective (lit "a<b") (lit "a<b") eq_refl).
Defined.

Lemma spec_escape_byte_len (c : byte) :
  (plain_byte c = true /\ len (spec_escape_byte c) = 1)
  \/ (plain_byte c = false /\ 4 <= len (spec_escape_byte c) <= 6).
Proof.
  destruct (spec_escape_byte_cases c)
    as [[-> ->] | [[-> ->] | [[-> ->] | [[-> ->] | (P & _ & _ & _ & _ & ->)]]]];
    [right | right | right | right | left];
    (split; [first [reflexivity | assumption] | unfold len; simpl; lia]).
Qed.

(** X4: the escaped text is at least as long as the source and at most six
    times as long. *)
Theorem attrEscape_length_bounds :
  forall (src : bytes),
    len src <= len (attrEscape [] src) <= 6 * len src.
Proof.
  intros src. rewrite attrEscape_spec_escape. simpl app.
  induction src as [| c t IH]; [unfold len; simpl; lia |].
  rewrite spec_escape_cons, len_app, len_cons.
  destruct (spec_escape_byte_len c) as [[_ H] | [_ H]]; lia.
Qed.

Lemma spec_escape_len_ge (src : bytes) : len src <= len (spec_escape src).
Proof.
  induction src as [| c t IH]; [unfold len; simpl; lia |].
  rewrite spec_escape_cons, len_app, len_cons.
  destruct (spec_escape_byte_len c) as [[_ H] | [_ H]]; lia.
Qed.

(** X5: [attrEscape] copies a source unchanged exactly when the source holds
    none of the four bytes it escapes. *)
Theorem attrEscape_identity_iff_plain :
  forall (src : bytes),
    attrEscape [] src = src <-> forallb plain_byte src = true.
Proof.
  intros src. rewrite attrEscape_spec_escape. simpl app. split.
  - intros H. assert (L : len (spec_escape src) = len src) by (rewrite H; reflexivity).
    clear H. induction src as [| c t IH]; [reflexivity |].
    rewrite spec_escape_cons, len_app, len_cons in L.
    pose proof (spec_escape_len_ge t) as Ht.
    simpl. destruct (spec_escape_byte_len c) as [[P Hc] | [_ Hc]]; [| lia].
    rewrite P. apply IH. lia.
  - induction src as [| c t IH]; [reflexivity |].
    simpl. intros H. apply andb_prop in H. destruct H as [Hc Ht].
    rewrite spec_escape_cons, (IH Ht).
    destruct (spec_escape_byte_cases c)
      as [[-> _] | [[-> _] | [[-> _] | [[-> _] | (_ & _ & _ & _ & _ & ->)]]]];
      try discriminate Hc.
    reflexivity.
Qed.

(** ** The language tag and the class attributes *)

Lemma spec_language_tag_no_whitespace (info : bytes) :
  no_whitespace (spec_language_tag info) = true.
Proof.
  induction info as [| c t IH]; [reflexivity |].
  simpl. destruct (is_tab_or_space c) eqn:E; [reflexivity |].
  simpl. rewrite E. exact IH.
Qed.

(** Either the info string has no tab or space, or it is its tag, a tab or
    space, and a rest. *)
Lemma spec_language_tag_split (info : bytes) :
  (no_whitespace info = true /\ IndexAny_tab_space info = -1
   /\ spec_language_tag info = info)
  \/ (0 <= IndexAny_tab_space info
      /\ exists c rest,
           is_tab_or_space c = true
           /\ info = spec_language_tag info ++ c :: rest).
Proof.
  induction info as [| c t IH]; [left; repeat split |].
  simpl. destruct (is_tab_or_space c) eqn:E.
  - right. split; [lia |]. exists c, t. split; [assumption | reflexivity].
  - destruct IH as [(Hn & Hi & Hs) | (Hi & c' & rest & Hc & Hs)].
    + left. rewrite Hi, Hs. repeat split. exact Hn.
    + right. destruct (Z.ltb_spec (IndexAny_tab_space t) 0); [lia |].
      split; [lia |]. exists c', rest. split; [assumption |].
      simpl. f_equal. exact Hs.
Qed.

(** X6: the tag [findLang] returns holds no tab or space; it is empty when
    the info string holds none, and otherwise the info string is the tag, a
    tab or space, and a rest.  So [findLang] of a tag it returned is always
    empty. *)
Theorem findLang_shape :
  forall (info : bytes),
    no_whitespace (findLang info) = true
    /\ ((no_whitespace info = true /\ findLang info = [])
        \/ (exists c rest,
               is_tab_or_space c = true
               /\ info = findLang info ++ c :: rest))
    /\ findLang (findLang info) = [].
Proof.
  intros info.
  assert (H : no_whitespace (findLang info) = true
              /\ ((no_whitespace info = true /\ findLang info = [])
                  \/ (exists c rest,
                         is_tab_or_space c = true
                         /\ info = findLang info ++ c :: rest))).
  { destruct (spec_language_tag_split info)
      as [(Hn & Hi & Hs) | (Hi & c & rest & Hc & Hs)].
    - destruct (findLang_without_whitespace info Hn) as [-> _].
      split; [reflexivity | left; auto].
    - rewrite (findLang_with_whitespace info Hi).
      split; [apply spec_language_tag_no_whitespace |].
      right. exists c, rest. auto. }
  destruct H as [H1 H2]. split; [exact H1 | split; [exact H2 |]].
  apply (findLang_without_whitespace (findLang info) H1).
Qed.

Lemma slice_whole {A} (s : list A) : slice s 0 (len s) = s.
Proof.
  pose proof (slice_from_0 s []) as H. rewrite app_nil_r in H. exact H.
Qed.

Lemma tag_slice (info : bytes) :
  slice info 0 (if IndexAny_tab_space info <? 0 then len info
                else IndexAny_tab_space info)
  = spec_language_tag info.
Proof.
  destruct (spec_language_tag_split info)
    as [(Hn & Hi & Hs) | (Hi & _)].
  - rewrite Hi. simpl. rewrite Hs. apply slice_whole.
  - destruct (Z.ltb_spec (IndexAny_tab_space info) 0); [lia |].
    apply slice_to_first_whitespace. assumption.
Qed.

(** X7: for a non-empty info string [appendLanguageAttr] does not panic and
    appends exactly two entries: the opening of the class attribute and
    [highlight-] followed by the info string up to its first tab or space
    (all of it when it has none) and the closing quote. *)
Theorem appendLanguageAttr_appends_tag_class :
  forall (attrs : list bytes) (info : bytes),
    info <> [] ->
    appendLanguageAttr attrs info
    = Some (attrs ++ [litq "class='highlight";
                      lit "highlight-" ++ spec_language_tag info ++ litq "'"]).
Proof.
  intros attrs info Hne. unfold appendLanguageAttr.
  destruct (Z.eqb_spec (len info) 0) as [E | _];
    [apply len_nil_inv in E; contradiction |].
  rewrite tag_slice. rewrite <- app_assoc. reflexivity.
Qed.

Lemma appendLanguageAttr_appends_tag_class_witness :
  appendLanguageAttr [lit "id=x"] (lit "go run")
  = Some [lit "id=x"; litq "class='highlight"; litq "highlight-go'"].
Proof.
  apply (appendLanguageAttr_appends_tag_class [lit "id=x"] (lit "go run")).
  discriminate.
Defined.

(** X8: for an empty info string [appendLanguageAttr] appends the opening
    of the class attribute and then puts the closing quote at the end of the
    first entry of the list: the class attribute is closed only when the
    list it was given is empty.  In no case does it panic. *)
Theorem appendLanguageAttr_empty_info_closes_first_entry :
  forall (attrs : list bytes) (info : bytes),
    (exists r, appendLanguageAttr attrs info = Some r)
    /\ appendLanguageAttr [] [] = Some [litq "class='highlight'"]
    /\ (forall a t,
           appendLanguageAttr (a :: t) []
           = Some ((a ++ litq "'") :: t ++ [litq "class='highlight"])).
Proof.
  intros attrs info. split; [| split; [reflexivity | reflexivity]].
  unfold appendLanguageAttr.
  destruct (len info =? 0); [| eauto].
  destruct attrs; simpl; eauto.
Qed.

(** X9: whenever [findLang] returns a non-empty tag, it is the tag that
    [appendLanguageAttr] puts in the class: the two agree on every info
    string that holds a tab or space after at least one other byte. *)
Theorem findLang_agrees_with_appendLanguageAttr :
  forall (attrs : list bytes) (info : bytes),
    findLang info <> [] ->
    appendLanguageAttr attrs info
    = Some (attrs ++ [litq "class='highlight";
                      lit "highlight-" ++ findLang info ++ litq "'"]).
Proof.
  intros attrs info Hne.
  assert (Hi : info <> []) by (intros ->; apply Hne; reflexivity).
  unfold appendLanguageAttr.
  destruct (Z.eqb_spec (len info) 0) as [E | _];
    [apply len_nil_inv in E; contradiction |].
  rewrite tag_slice.
  destruct (spec_language_tag_split info) as [(Hn & _) | (Hp & _)].
  - destruct (findLang_without_whitespace info Hn) as [E _]. contradiction.
  - rewrite (findLang_with_whitespace info Hp).
    rewrite <- app_assoc. reflexivity.
Qed.

Lemma findLang_agrees_with_appendLanguageAttr_witness :
  appendLanguageAttr [] (lit "diff x")
  = Some [litq "class='highlight";
          lit "highlight-" ++ findLang (lit "diff x") ++ litq "'"].
Proof.
  apply (findLang_agrees_with_appendLanguageAttr [] (lit "diff x")).
  discriminate.
Defined.

(** ** Text extraction and the exported heading *)

(** The sibling loop of [extractText], run on from any accumulator. *)
Lemma extractText_siblings (cs : list HtmlNode) :
  forall (out : bytes),
    (fix siblings (out : bytes) (cs : list HtmlNode) : bytes :=
       match cs with
       | [] => out
       | c :: cs' =>
           match c with
           | HNode TextNode data _ => siblings (out ++ data) cs'
           | _ => siblings (out ++ extractText c) cs'
           end
       end) out cs
    = out ++ List.concat (map childText cs).
Proof.
  induction cs as [| c cs' IH]; intros out.
  - simpl. rewrite app_nil_r. reflexivity.
  - destruct c as [ty data children].
    destruct ty; simpl map; simpl List.concat; rewrite app_assoc;
      rewrite <- IH; reflexivity.
Qed.

Lemma extractText_children (ty : HtmlNodeType) (data : bytes)
  (cs : list HtmlNode) :
  extractText (HNode ty data cs) = List.concat (map childText cs).
Proof.
  pose proof (extractText_siblings cs []) as H. simpl app in H.
  rewrite <- H. reflexivity.
Qed.

(** X10: [extractText] of a node is the concatenation, in order, of what
    its children contribute: the data of a text child, the extracted text
    of any other child.  The node's own type and data play no part, so it
    is the same for the children split in two and put side by side, and a
    childless node (a comment, a lone text node) gives the empty text. *)
Theorem extractText_concatenates_children :
  forall (ty ty1 ty2 : HtmlNodeType) (data data1 data2 : bytes)
         (cs1 cs2 : list HtmlNode),
    extractText (HNode ty data (cs1 ++ cs2))
    = extractText (HNode ty1 data1 cs1) ++ extractText (HNode ty2 data2 cs2)
    /\ extractText (HNode ty data cs1) = List.concat (map childText cs1)
    /\ extractText (HNode ty data []) = [].
Proof.
  intros. rewrite !extractText_children.
  rewrite map_app, concat_app. repeat split.
Qed.

(** X11: an element child is transparent and a text child is taken whole:
    wrapping the children of a node into one more element changes nothing,
    and a node whose children are all text nodes gives their data in
    order. *)
Theorem extractText_sees_through_elements :
  forall (ty : HtmlNodeType) (data wrapData : bytes) (cs : list HtmlNode)
         (texts : list bytes),
    extractText (HNode ty data [HNode ElementNode wrapData cs])
    = extractText (HNode ty data cs)
    /\ extractText
         (HNode ty data (map (fun t => HNode TextNode t []) texts))
       = List.concat texts.
Proof.
  intros. split.
  - rewrite (extractText_children ty data [_]).
    cbn [map List.concat childText]. rewrite app_nil_r.
    rewrite !extractText_children. reflexivity.
  - rewrite extractText_children, map_map. simpl. rewrite map_id.
    reflexivity.
Qed.

(** X12: the node [Heading] builds reads back: the text [extractText]
    finds in it is what the octicon contributes followed by the title.  With
    an octicon that holds no text it is the title itself, so the anchor name
    [heading] would derive from the node is the one [Heading] has put into
    the [name] attribute and, after ['#'], into [href]. *)
Theorem Heading_text_is_title :
  forall (Create : bytes -> bytes) (icon : AttrNode) (heading : Atom)
         (title : bytes),
    extractText (forgetAttr (Heading_ Create icon heading title))
    = childText (forgetAttr icon) ++ title
    /\ (childText (forgetAttr icon) = [] ->
        exists spanNode textNode hData,
          Heading_ Create icon heading title
          = ANode ElementNode hData []
              [ANode ElementNode (lit "a")
                 [{| Key := lit "name";
                     Val := Create
                              (extractText
                                 (forgetAttr
                                    (Heading_ Create icon heading title))) |};
                  {| Key := lit "class"; Val := lit "anchor" |};
                  {| Key := lit "href";
                     Val := lit "#"
                            ++ Create
                                 (extractText
                                    (forgetAttr
                                       (Heading_ Create icon heading
                                          title))) |};
                  {| Key := lit "rel"; Val := lit "nofollow" |};
                  {| Key := lit "aria-hidden"; Val := lit "true" |}]
                 [spanNode];
               textNode]).
Proof.
  intros Create icon heading title.
  assert (E : extractText (forgetAttr (Heading_ Create icon heading title))
              = childText (forgetAttr icon) ++ title).
  { unfold Heading_. cbn [forgetAttr]. rewrite extractText_children.
    cbn [map List.concat childText]. rewrite !extractText_children.
    cbn [map List.concat]. rewrite !app_nil_r. reflexivity. }
  split; [exact E |].
  intros Hicon. rewrite E, Hicon. simpl app.
  unfold Heading_. do 3 eexists. reflexivity.
Qed.

(** ** Lines and their offsets *)

Lemma slice_shift (l J : bytes) (a b : Z) :
  0 <= a ->
  slice (l ++ NL :: J) (a + (len l + 1)) (b + (len l + 1)) = slice J a b.
Proof.
  intros Ha. unfold slice, len.
  replace (b + (Z.of_nat (length l) + 1) - (a + (Z.of_nat (length l) + 1)))
    with (b - a) by lia.
  f_equal. rewrite skipn_app.
  rewrite skipn_all2 by lia.
  replace (Z.to_nat (a + (Z.of_nat (length l) + 1)) - length l)%nat
    with (S (Z.to_nat a)) by lia.
  reflexivity.
Qed.

Lemma lineStarts_from_locate (lines : list bytes) :
  forall (offset k v : Z) (line : bytes),
    index lines k = Some line ->
    index (lineStarts_from lines offset) k = Some v ->
    slice (Join_nl lines) (v - offset) (v - offset + len line) = line
    /\ v - offset + len line <= len (Join_nl lines).
Proof.
  induction lines as [| l ls IH]; intros offset k v line Hl Hv;
    [unfold index in Hl; destruct (k <? 0), (Z.to_nat k); discriminate |].
  pose proof (index_bounds _ _ _ Hl) as Hb.
  destruct (Z.eq_dec k 0) as [-> | Hne].
  - rewrite index_cons_0 in Hl. injection Hl as ->.
    simpl lineStarts_from in Hv. rewrite index_cons_0 in Hv.
    injection Hv as <-. rewrite Z.sub_diag, Z.add_0_l.
    destruct ls as [| l' ls'].
    + split; [apply slice_whole | simpl; lia].
    + rewrite Join_nl_cons. split; [apply slice_from_0 |].
      rewrite len_app, len_cons.
      pose proof (len_nonneg (Join_nl (l' :: ls'))). lia.
  - rewrite index_cons_pos in Hl by lia.
    simpl lineStarts_from in Hv. rewrite index_cons_pos in Hv by lia.
    destruct ls as [| l' ls'];
      [unfold index in Hl; simpl in Hl;
       destruct (k - 1 <? 0), (Z.to_nat (k - 1)); discriminate |].
    pose proof (lineStarts_from_bounds _ _ _ _ Hv) as Hlo.
    destruct (IH _ _ _ _ Hl Hv) as [Hs Hu].
    rewrite Join_nl_cons. split.
    + replace (v - offset) with (v - (offset + (len l + 1)) + (len l + 1))
        by lia.
      replace (v - (offset + (len l + 1)) + (len l + 1) + len line)
        with (v - (offset + (len l + 1)) + len line + (len l + 1)) by lia.
      rewrite slice_shift by lia. exact Hs.
    + rewrite len_app, len_cons. lia.
Qed.

(** X13: [lineStarts[k]] is where line [k] stands in the source: the
    [len(lines[k])] bytes of [src] from that offset on are the line, and
    they lie within [src]. *)
Theorem lineStarts_locate_lines :
  forall (src line : bytes) (k v : Z),
    index (Split_nl src) k = Some line ->
    index (lineStarts_of (Split_nl src)) k = Some v ->
    slice src v (v + len line) = line
    /\ 0 <= v /\ v + len line <= len src.
Proof.
  intros src line k v Hl Hv. unfold lineStarts_of in Hv.
  pose proof (lineStarts_from_bounds _ _ _ _ Hv) as Hb.
  destruct (lineStarts_from_locate _ _ _ _ _ Hl Hv) as [Hs Hu].
  rewrite Join_Split_nl, Z.sub_0_r in *.
  split; [exact Hs | lia].
Qed.

Lemma lineStarts_locate_lines_witness :
  slice (lit "ab" ++ [NL] ++ lit "cd") 3 (3 + len (lit "cd")) = lit "cd"
  /\ 0 <= 3 /\ 3 + len (lit "cd") <= len (lit "ab" ++ [NL] ++ lit "cd").
Proof.
  exact (lineStarts_locate_lines (lit "ab" ++ [NL] ++ lit "cd") (lit "cd")
           1 3 eq_refl eq_refl).
Defined.

(** ** Panics *)

(** X14: whatever the collaborators return, [highlightCode] does not panic
    on any source and any language: in the diff scan every index into
    [lineStarts] and [lines] is in range and [[1:]] is only taken of lines
    that start with ['+'] or ['-'].  [codeblock] therefore panics exactly
    when the node has no parent, and [RenderNode] exactly on a code block
    without parent. *)
Theorem rendering_panics_only_without_parent :
  forall (Parse : bytes -> option HtmlNode) (Unescape Create : bytes -> bytes)
         (Print : bytes -> option bytes)
         (Annotate_diff : bytes -> option (list Annotation))
         (Fine : bytes -> bytes -> Z * Z -> list Annotation * list Annotation)
         (Sort : list Annotation -> list Annotation)
         (Annotate : bytes -> list Annotation -> option bytes)
         (w : Writer) (node : Node) (entering : bool) (src lang : bytes),
    (exists r, highlightCode Print Annotate_diff Fine Sort Annotate src lang
               = Some r)
    /\ (codeblock Print Annotate_diff Fine Sort Annotate w node entering = None
        <-> Parent node = None)
    /\ (RenderNode Parse Unescape Create Print Annotate_diff Fine Sort
          Annotate w node entering = None
        <-> Type_ node = CodeBlock /\ Parent node = None).
Proof.
  intros.
  assert (Hc : codeblock Print Annotate_diff Fine Sort Annotate w node entering
               = None <-> Parent node = None).
  { unfold codeblock.
    destruct (highlightCode_total Print Annotate_diff Fine Sort Annotate
                (Literal node) (findLang (Info node))) as (hc & ok & ->).
    destruct (Parent node); split; intros H; congruence. }
  split; [| split; [exact Hc |]].
  - destruct (highlightCode_total Print Annotate_diff Fine Sort Annotate
                src lang) as (hc & ok & H).
    eauto.
  - unfold RenderNode. destruct (Type_ node);
      try (split; [discriminate | intros [H _]; discriminate]).
    rewrite Hc. split; [auto | intros [_ H]; exact H].
Qed.

(** X15: for every source the scan completes, and of every hunk it closes
    out the four offsets are positions of the source buffer, the addition
    side is not inverted, and the removal side is inverted exactly when the
    first Added line of the run precedes its first Removed line. *)
Theorem coarse_wrappers_lie_in_source :
  forall (src : bytes),
    exists hs,
      segment src = Some hs
      /\ forall h, In h hs ->
           (0 <= Start (coarseLeft h) <= len src
            /\ 0 <= End_ (coarseLeft h) <= len src
            /\ 0 <= Start (coarseRight h) <= len src
            /\ 0 <= End_ (coarseRight h) <= len src)
           /\ Start (coarseRight h) <= End_ (coarseRight h)
           /\ (hunkDel h <= hunkIns h ->
               Start (coarseLeft h) <= End_ (coarseLeft h))
           /\ (hunkIns h < hunkDel h ->
               End_ (coarseLeft h) < Start (coarseLeft h)).
Proof.
  intros src. destruct (segment_total src) as (hs & Hs & _).
  exists hs. split; [exact Hs |]. intros h Hin.
  exact (coarse_wrapper_offsets src hs h Hs Hin).
Qed.

(** ** The hunks as a partition of the changed lines *)

(** The four things one iteration can do, from a state the loop can be
    in. *)
Lemma scanLine_cases (lines pre rest : list bytes) (line : bytes) (d n : Z) :
  lines = pre ++ line :: rest ->
  markers_ok lines (len pre) d n ->
  (exists t, line = PLUS :: t
             /\ scanLine lines (lineStarts_of lines) (len pre) line d n
                = Some (d, (if n =? -1 then len pre else n), []))
  \/ (exists t, line = MINUS :: t
                /\ scanLine lines (lineStarts_of lines) (len pre) line d n
                   = Some ((if d =? -1 then len pre else d), n, []))
  \/ (firstChar line <> PLUS /\ firstChar line <> MINUS
      /\ d = -1 /\ n = -1
      /\ scanLine lines (lineStarts_of lines) (len pre) line d n
         = Some (-1, -1, []))
  \/ (firstChar line <> PLUS /\ firstChar line <> MINUS
      /\ (d <> -1 \/ n <> -1)
      /\ exists h,
           closeHunk lines (lineStarts_of lines) (len pre) (firstChar line)
             d n = Some h
           /\ scanLine lines (lineStarts_of lines) (len pre) line d n
              = Some (-1, -1, [h])).
Proof.
  intros Hl Hinv. unfold scanLine.
  destruct (Byte.eqb (firstChar line) PLUS) eqn:EP.
  { apply byte_dec_bl in EP.
    destruct (firstChar_cons_inv line PLUS EP) as [t ->]; [discriminate |].
    left. eauto. }
  destruct (Byte.eqb (firstChar line) MINUS) eqn:EM.
  { apply byte_dec_bl in EM.
    destruct (firstChar_cons_inv line MINUS EM) as [t ->]; [discriminate |].
    right. left. eauto. }
  apply eqb_false in EP. apply eqb_false in EM.
  assert (Hi : 0 <= len pre < len lines).
  { subst lines. rewrite len_app, len_cons.
    pose proof (len_nonneg pre). pose proof (len_nonneg rest). lia. }
  destruct (negb (d =? -1) || negb (n =? -1)) eqn:Ep.
  - apply pending_true in Ep. right. right. right.
    destruct (closeHunk_total lines (len pre) (firstChar line) d n Hi Hinv Ep)
      as [h Hh].
    rewrite Hh. repeat (split; [assumption |]). eauto.
  - apply pending_false in Ep. destruct Ep as [-> ->].
    right. right. left. repeat split; assumption.
Qed.

(** The line range of a hunk, from the markers it was closed out with. *)
Lemma closeHunk_range (lines : list bytes) (i : Z) (c : byte) (d n : Z)
  (h : ChangeHunk) :
  markers_ok lines i d n ->
  d <> -1 \/ n <> -1 ->
  closeHunk lines (lineStarts_of lines) i c d n = Some h ->
  hunkLine h = i
  /\ 0 <= hunkFirst h < i
  /\ hunkDel h < i /\ hunkIns h <= i
  /\ (forall m, (d = -1 \/ m <= d) -> (n = -1 \/ m <= n) -> m <= i ->
                m <= hunkFirst h)
  /\ (forall k, (d <> -1 /\ d <= k) \/ (n <> -1 /\ n <= k) ->
                hunkFirst h <= k).
Proof.
  intros (Hd & Hn & _) Hp Hc.
  destruct (closeHunk_fields _ _ _ _ _ _ _ Hc) as (F1 & F2 & F3 & _).
  unfold hunkFirst. rewrite F1, F2, F3.
  destruct (Z.eqb_spec d (-1)) as [Ed | Ed];
    [| destruct (Z.eqb_spec n (-1)) as [En | En]].
  - destruct Hn as [Hn | [Hn _]]; [destruct Hp; congruence |].
    repeat split; intros; lia.
  - destruct Hd as [Hd | [Hd _]]; [congruence |].
    repeat split; intros; lia.
  - destruct Hd as [Hd | [Hd _]]; [congruence |].
    destruct Hn as [Hn | [Hn _]]; [congruence |].
    repeat split; intros; lia.
Qed.

Lemma scanLines_apart (lines rest : list bytes) :
  forall (pre post : list bytes) (d n m d' n' : Z) (hs : list ChangeHunk),
    lines = pre ++ rest ++ post ->
    markers_ok lines (len pre) d n ->
    m <= len pre -> (d = -1 \/ m <= d) -> (n = -1 \/ m <= n) ->
    scanLines lines (lineStarts_of lines) rest (len pre) d n
    = Some (d', n', hs) ->
    hunks_apart m hs.
Proof.
  induction rest as [| line rest' IH];
    intros pre post d n m d' n' hs Hl Hinv Hm Hd Hn Hs.
  - simpl in Hs. injection Hs as <- <- <-. exact I.
  - simpl in Hs.
    assert (Hl' : lines = (pre ++ [line]) ++ rest' ++ post)
      by (rewrite <- app_assoc; exact Hl).
    assert (Hlen : len pre + 1 = len (pre ++ [line]))
      by (rewrite len_app; reflexivity).
    destruct (scanLine_inv lines pre (rest' ++ post) line d n Hl Hinv)
      as (d1 & n1 & hs1 & H1 & Hinv1 & _).
    rewrite Hlen in Hinv1.
    destruct (scanLine_cases lines pre (rest' ++ post) line d n Hl Hinv)
      as [(t & _ & E) | [(t & _ & E) | [(_ & _ & _ & _ & E)
          | (_ & _ & Hp & h & Hh & E)]]];
      rewrite E in H1; injection H1 as <- <- <-; rewrite E in Hs;
      rewrite Hlen in Hs;
      destruct (scanLines lines (lineStarts_of lines) rest'
                  (len (pre ++ [line])) _ _)
        as [[[d2 n2] hs2] |] eqn:E2; try discriminate Hs;
      injection Hs as <- <- <-.
    + eapply (IH (pre ++ [line]) post);
        [exact Hl' | exact Hinv1 | lia | exact Hd | | exact E2].
      destruct (Z.eqb_spec n (-1)); [right; lia | assumption].
    + eapply (IH (pre ++ [line]) post);
        [exact Hl' | exact Hinv1 | lia | | exact Hn | exact E2].
      destruct (Z.eqb_spec d (-1)); [right; lia | assumption].
    + eapply (IH (pre ++ [line]) post);
        [exact Hl' | exact Hinv1 | lia | left; reflexivity
        | left; reflexivity | exact E2].
    + destruct (closeHunk_range _ _ _ _ _ _ Hinv Hp Hh)
        as (R1 & R2 & _ & _ & R5 & _).
      simpl. split; [apply R5; assumption |]. split; [lia |].
      rewrite R1, Hlen.
      eapply (IH (pre ++ [line]) post);
        [exact Hl' | exact Hinv1 | lia | left; reflexivity
        | left; reflexivity | exact E2].
Qed.

Lemma hunks_apart_adjacent (l1 l2 : list ChangeHunk) (h1 h2 : ChangeHunk) :
  forall m, hunks_apart m (l1 ++ h1 :: h2 :: l2) ->
            hunkFirst h1 < hunkLine h1 /\ hunkLine h1 < hunkFirst h2.
Proof.
  induction l1 as [| h l1' IH]; intros m H.
  - simpl in H. destruct H as (_ & H1 & H2 & _). lia.
  - simpl in H. destruct H as (_ & _ & H). exact (IH _ H).
Qed.

(** X16: the hunks of a scan come in the order of the source and keep
    apart: each spans at least one line, and the next one starts after the
    line that closed it out.  So the wrappers of a later hunk begin at
    larger offsets than those of an earlier hunk end. *)
Theorem hunks_do_not_overlap :
  forall (src : bytes),
    exists hs,
      segment src = Some hs
      /\ hunks_apart 0 hs
      /\ forall l1 h1 h2 l2,
           hs = l1 ++ h1 :: h2 :: l2 ->
           hunkLine h1 < hunkDel h2 /\ hunkLine h1 < hunkIns h2
           /\ End_ (coarseLeft h1) < Start (coarseLeft h2)
           /\ End_ (coarseRight h1) < Start (coarseLeft h2)
           /\ End_ (coarseLeft h1) < Start (coarseRight h2)
           /\ End_ (coarseRight h1) < Start (coarseRight h2).
Proof.
  intros src.
  destruct (scan_total src) as (d & n & hs & Hs & _ & Hall).
  exists hs. unfold segment. rewrite Hs. split; [reflexivity |].
  assert (Hap : hunks_apart 0 hs).
  { unfold scan in Hs.
    apply (scanLines_apart (Split_nl src) (Split_nl src) [] [] (-1) (-1) 0
             d n hs);
      [rewrite app_nil_r; reflexivity | apply markers_ok_unset
      | unfold len; simpl; lia | left; reflexivity | left; reflexivity
      | exact Hs]. }
  split; [exact Hap |].
  intros l1 h1 h2 l2 E. subst hs.
  destruct (hunks_apart_adjacent _ _ _ _ _ Hap) as [Hne Hlt].
  rewrite Forall_forall in Hall.
  destruct (Hall h1) as (i1 & line1 & d1 & n1 & _ & _ & _ & _ & Hi1 & Hp1 & Hc1);
    [apply in_or_app; right; left; reflexivity |].
  destruct (Hall h2) as (i2 & line2 & d2 & n2 & _ & _ & _ & _ & Hi2 & Hp2 & Hc2);
    [apply in_or_app; right; right; left; reflexivity |].
  destruct (closeHunk_fields _ _ _ _ _ _ _ Hc1)
    as (A1 & _ & _ & _ & A5 & _ & A7 & _).
  destruct (closeHunk_fields _ _ _ _ _ _ _ Hc2)
    as (_ & _ & _ & B4 & B5 & B6 & _ & _).
  destruct (closeHunk_range _ _ _ _ _ _ Hi1 Hp1 Hc1)
    as (_ & _ & _ & C4 & _).
  rewrite <- A1 in A7, C4.
  unfold hunkFirst in Hlt.
  pose proof (index_bounds _ _ _ A5) as I5.
  pose proof (index_bounds _ _ _ A7) as I7.
  unfold coarseLeft, coarseRight. cbn [Start End_]. rewrite B6.
  unfold lineStarts_of in *.
  assert (L1 : endOffsetRight h1 < beginOffsetLeft h2)
    by (apply (lineStarts_from_increasing _ _ _ _ _ _
                 (conj (proj1 I7) (ltac:(lia) : hunkLine h1 < hunkDel h2))
                 A7 B4)).
  assert (L2 : endOffsetRight h1 < endOffsetLeft h2)
    by (apply (lineStarts_from_increasing _ _ _ _ _ _
                 (conj (proj1 I7) (ltac:(lia) : hunkLine h1 < hunkIns h2))
                 A7 B5)).
  assert (L3 : endOffsetLeft h1 <= endOffsetRight h1).
  { destruct (Z.eq_dec (hunkIns h1) (hunkLine h1)) as [E | E].
    - rewrite E in A5. rewrite A5 in A7. injection A7 as <-. lia.
    - pose proof (lineStarts_from_increasing _ _ _ _ _ _
                    (conj (proj1 I5)
                       (ltac:(lia) : hunkIns h1 < hunkLine h1)) A5 A7).
      lia. }
  repeat split; lia.
Qed.

(** Every line a hunk spans starts with ['+'] or ['-']. *)
Lemma closed_at_covers_marked (lines : list bytes) (h : ChangeHunk) (k : Z) :
  closed_at lines h -> hunk_covers h k -> marked lines k.
Proof.
  intros (i & line & d & n & _ & _ & _ & _ & Hinv & Hp & Hc) [Hlo Hhi].
  destruct (closeHunk_fields _ _ _ _ _ _ _ Hc) as (F1 & F2 & F3 & _).
  pose proof Hinv as (Hd & Hn & Hr).
  apply Hr; [lia |].
  unfold hunkFirst in Hlo. rewrite F2, F3 in Hlo. rewrite F1 in Hhi.
  destruct (Z.eqb_spec d (-1)) as [Ed | Ed];
    [| destruct (Z.eqb_spec n (-1)) as [En | En]].
  - right. destruct Hp; [congruence |]. split; [assumption | lia].
  - left. split; [assumption |].
    destruct Hd as [Hd | [Hd _]]; [congruence | lia].
  - destruct (Z.le_ge_cases d n); [left | right]; split; try assumption; lia.
Qed.

(** A line that starts with ['+'] or ['-'] and has been scanned lies in a
    hunk closed out so far or in the run still pending. *)
Lemma scanLines_cover (lines rest : list bytes) :
  forall (pre post : list bytes) (d n d' n' : Z) (hs : list ChangeHunk),
    lines = pre ++ rest ++ post ->
    markers_ok lines (len pre) d n ->
    scanLines lines (lineStarts_of lines) rest (len pre) d n
    = Some (d', n', hs) ->
    forall k,
      marked lines k ->
      k < len pre + len rest ->
      len pre <= k \/ (d <> -1 /\ d <= k) \/ (n <> -1 /\ n <= k) ->
      (exists h, In h hs /\ hunk_covers h k)
      \/ (d' <> -1 /\ d' <= k) \/ (n' <> -1 /\ n' <= k).
Proof.
  induction rest as [| line rest' IH];
    intros pre post d n d' n' hs Hl Hinv Hs k Hk Hlt Hpre.
  - simpl in Hs. injection Hs as <- <- <-.
    change (len (@nil bytes)) with 0 in Hlt.
    destruct Hpre as [H | H]; [lia | right; exact H].
  - simpl in Hs.
    assert (Hl' : lines = (pre ++ [line]) ++ rest' ++ post)
      by (rewrite <- app_assoc; exact Hl).
    assert (Hlen : len pre + 1 = len (pre ++ [line]))
      by (rewrite len_app; reflexivity).
    assert (Hhere : index lines (len pre) = Some line)
      by (rewrite Hl; apply index_app_here).
    rewrite len_cons in Hlt.
    destruct (scanLine_inv lines pre (rest' ++ post) line d n Hl Hinv)
      as (d1 & n1 & hs1 & H1 & Hinv1 & _).
    rewrite Hlen in Hinv1.
    pose proof (len_nonneg pre) as Hp0.
    destruct (scanLine_cases lines pre (rest' ++ post) line d n Hl Hinv)
      as [(t & _ & E) | [(t & _ & E) | [(HP & HM & Ed & En & E)
          | (HP & HM & Hp & h & Hh & E)]]];
      rewrite E in H1; injection H1 as <- <- <-; rewrite E in Hs;
      rewrite Hlen in Hs;
      destruct (scanLines lines (lineStarts_of lines) rest'
                  (len (pre ++ [line])) _ _)
        as [[[d2 n2] hs2] |] eqn:E2; try discriminate Hs;
      injection Hs as <- <- <-.
    + eapply (IH (pre ++ [line]) post);
        [exact Hl' | exact Hinv1 | exact E2 | exact Hk | lia |].
      destruct (Z.eqb_spec n (-1)) as [En | En].
      * destruct Hpre as [H | [H | [H _]]]; [| auto | congruence].
        destruct (Z.eq_dec k (len pre)); [right; right; lia | left; lia].
      * destruct Hpre as [H | [H | H]]; [| auto | auto].
        destruct (Z.eq_dec k (len pre)); [| left; lia].
        right. right. destruct Hinv as (_ & [Hn | [Hn _]] & _);
          [congruence | lia].
    + eapply (IH (pre ++ [line]) post);
        [exact Hl' | exact Hinv1 | exact E2 | exact Hk | lia |].
      destruct (Z.eqb_spec d (-1)) as [Ed | Ed].
      * destruct Hpre as [H | [[H _] | H]]; [| congruence | auto].
        destruct (Z.eq_dec k (len pre)); [right; left; lia | left; lia].
      * destruct Hpre as [H | [H | H]]; [| auto | auto].
        destruct (Z.eq_dec k (len pre)); [| left; lia].
        right. left. destruct Hinv as ([Hd | [Hd _]] & _);
          [congruence | lia].
    + assert (Hne : k <> len pre).
      { intros ->. destruct Hk as (c & t & Hc & [-> | ->]);
          rewrite Hhere in Hc; injection Hc as ->; simpl in *; congruence. }
      simpl app.
      eapply (IH (pre ++ [line]) post);
        [exact Hl' | exact Hinv1 | exact E2 | exact Hk | lia |].
      subst d n. destruct Hpre as [H | [[H _] | [H _]]];
        [left; lia | congruence | congruence].
    + assert (Hne : k <> len pre).
      { intros ->. destruct Hk as (c & t & Hc & [-> | ->]);
          rewrite Hhere in Hc; injection Hc as ->; simpl in *; congruence. }
      destruct (closeHunk_range _ _ _ _ _ _ Hinv Hp Hh)
        as (R1 & _ & _ & _ & _ & R6).
      destruct (Z.lt_ge_cases k (len pre)) as [Hbefore | Hafter].
      * left. exists h. split; [left; reflexivity |].
        unfold hunk_covers. rewrite R1. split; [| exact Hbefore].
        apply R6. destruct Hpre as [H | H]; [lia | exact H].
      * destruct (IH (pre ++ [line]) post (-1) (-1) d2 n2 hs2 Hl' Hinv1 E2
                    k Hk ltac:(lia) ltac:(left; lia))
          as [(h' & Hin & Hcov) | Hpend].
        -- left. exists h'. split; [right; exact Hin | exact Hcov].
        -- right. exact Hpend.
Qed.

Lemma scan_newline_terminated (src : bytes) :
  exists hs,
    scan (src ++ [NL]) = Some (-1, -1, hs)
    /\ Forall (closed_at (Split_nl (src ++ [NL]))) hs.
Proof.
  destruct (scan_total (src ++ [NL])) as (d & n & hs & Hs & _ & Hall).
  exists hs. split; [| exact Hall].
  rewrite Hs. unfold scan in Hs. rewrite Split_nl_trailing_newline in Hs.
  rewrite scanLines_app in Hs.
  set (lines := Split_nl src ++ [[]]) in *.
  destruct (scanLines_inv lines (Split_nl src) [] [[]] (-1) (-1) eq_refl
              (markers_ok_unset lines _))
    as (d0 & n0 & hs0 & Hs0 & Hinv & _).
  change (len (@nil bytes)) with 0 in Hs0, Hinv.
  rewrite Z.add_0_l in *. rewrite Hs0 in Hs.
  destruct (scanLine_at_empty_line lines (Split_nl src) [] d0 n0 eq_refl Hinv)
    as (closed & Hc & _).
  simpl scanLines in Hs. rewrite Hc in Hs. injection Hs as <- <- _.
  reflexivity.
Qed.

(** X17: in a newline-terminated source the hunks are exactly the runs of
    changed lines: a line starts with ['+'] or ['-'] if and only if some
    hunk of the scan spans it. *)
Theorem hunks_span_exactly_the_changed_lines :
  forall (src : bytes),
    exists hs,
      segment (src ++ [NL]) = Some hs
      /\ forall k,
           marked (Split_nl (src ++ [NL])) k
           <-> exists h, In h hs /\ hunk_covers h k.
Proof.
  intros src.
  destruct (scan_newline_terminated src) as (hs & Hs & Hall).
  exists hs. unfold segment. rewrite Hs. split; [reflexivity |].
  intros k. split.
  - intros Hk.
    assert (Hb : 0 <= k < len (Split_nl (src ++ [NL]))).
    { destruct Hk as (c & t & Hc & _). exact (index_bounds _ _ _ Hc). }
    unfold scan in Hs.
    destruct (scanLines_cover (Split_nl (src ++ [NL]))
                (Split_nl (src ++ [NL])) [] [] (-1) (-1) (-1) (-1) hs
                ltac:(rewrite app_nil_r; reflexivity)
                (markers_ok_unset _ _) Hs k Hk
                ltac:(change (len (@nil bytes)) with 0; lia)
                ltac:(left; change (len (@nil bytes)) with 0; lia))
      as [H | [[H _] | [H _]]]; [exact H | congruence | congruence].
  - intros (h & Hin & Hcov). rewrite Forall_forall in Hall.
    exact (closed_at_covers_marked _ h k (Hall h Hin) Hcov).
Qed.

Lemma marked_line_in_list (lines : list bytes) (k : Z) :
  marked lines k ->
  exists line,
    In line lines
    /\ (Byte.eqb (firstChar line) PLUS || Byte.eqb (firstChar line) MINUS)
       = true.
Proof.
  intros (c & t & Hc & Hpm). exists (c :: t). split.
  - unfold index in Hc. destruct (k <? 0); [discriminate |].
    exact (nth_error_In _ _ Hc).
  - destruct Hpm as [-> | ->]; reflexivity.
Qed.

(** X18: a source in which no line starts with ['+'] or ['-'] has no hunk:
    the scan completes and closes nothing out, so no wrapper is added to
    the annotations of the diff. *)
Theorem unchanged_lines_give_no_hunk :
  forall (src : bytes),
    forallb (fun line =>
               negb (Byte.eqb (firstChar line) PLUS
                     || Byte.eqb (firstChar line) MINUS))
      (Split_nl src) = true ->
    segment src = Some [].
Proof.
  intros src Hnone.
  destruct (scan_total src) as (d & n & hs & Hs & _ & Hall).
  unfold segment. rewrite Hs. f_equal.
  destruct hs as [| h hs']; [reflexivity | exfalso].
  assert (Hap : hunks_apart 0 (h :: hs')).
  { unfold scan in Hs.
    apply (scanLines_apart (Split_nl src) (Split_nl src) [] [] (-1) (-1) 0
             d n (h :: hs'));
      [rewrite app_nil_r; reflexivity | apply markers_ok_unset
      | unfold len; simpl; lia | left; reflexivity | left; reflexivity
      | exact Hs]. }
  destruct Hap as (_ & Hlt & _).
  inversion Hall as [| ? ? Hh _]; subst.
  assert (Hm : marked (Split_nl src) (hunkFirst h))
    by (apply (closed_at_covers_marked _ h); [exact Hh | split; lia]).
  destruct (marked_line_in_list _ _ Hm) as (line & Hin & Hpm).
  rewrite forallb_forall in Hnone. specialize (Hnone line Hin).
  rewrite Hpm in Hnone. discriminate.
Qed.

Lemma unchanged_lines_give_no_hunk_witness :
  segment (Join_nl [lit "@@ -1 +1 @@"; lit " a"; lit ""]) = Some [].
Proof.
  exact (unchanged_lines_give_no_hunk
           (Join_nl [lit "@@ -1 +1 @@"; lit " a"; lit ""]) eq_refl).
Defined.

(** The start of the line after line [k]. *)
Lemma lineStarts_from_succ (lines : list bytes) :
  forall (offset k v v' : Z) (line : bytes),
    index lines k = Some line ->
    index (lineStarts_from lines offset) k = Some v ->
    index (lineStarts_from lines offset) (k + 1) = Some v' ->
    v' = v + (len line + 1).
Proof.
  induction lines as [| l ls IH]; intros offset k v v' line Hl Hv Hv';
    [unfold index in Hl; destruct (k <? 0), (Z.to_nat k); discriminate |].
  pose proof (index_bounds _ _ _ Hl) as Hb.
  simpl lineStarts_from in Hv, Hv'.
  rewrite index_cons_pos in Hv' by lia.
  destruct (Z.eq_dec k 0) as [-> | Hne].
  - rewrite index_cons_0 in Hl. rewrite index_cons_0 in Hv.
    injection Hl as ->. injection Hv as <-.
    simpl in Hv'. destruct ls as [| l' ls']; [discriminate |].
    simpl lineStarts_from in Hv'. rewrite index_cons_0 in Hv'.
    injection Hv' as <-. reflexivity.
  - rewrite index_cons_pos in Hl by lia.
    rewrite index_cons_pos in Hv by lia.
    replace (k + 1 - 1) with (k - 1 + 1) in Hv' by lia.
    exact (IH _ _ _ _ _ Hl Hv Hv').
Qed.

Lemma content_loop_len (lines : list bytes) :
  forall (n : nat) (a va vb : Z) (content s : bytes),
    content_loop lines a n content = Some s ->
    index (lineStarts_of lines) a = Some va ->
    index (lineStarts_of lines) (a + Z.of_nat n) = Some vb ->
    len s = len content + (vb - va).
Proof.
  induction n as [| n IH]; intros a va vb content s Hc Ha Hb.
  - simpl in Hc. injection Hc as <-. rewrite Z.add_0_r in Hb.
    rewrite Ha in Hb. injection Hb as <-. lia.
  - simpl in Hc.
    destruct (index lines a) as [[| c t] |] eqn:El; try discriminate Hc.
    pose proof (index_bounds _ _ _ Ha) as Ba.
    pose proof (index_bounds _ _ _ Hb) as Bb.
    destruct (index_Some_lt (lineStarts_of lines) (a + 1)) as [v1 H1];
      [lia |].
    pose proof (lineStarts_from_succ _ _ _ _ _ _ El Ha H1) as E1.
    replace (a + Z.of_nat (S n)) with (a + 1 + Z.of_nat n) in Hb by lia.
    rewrite (IH _ _ _ _ _ Hc H1 Hb).
    rewrite len_app, !len_cons, len_app in *.
    change (len [NL]) with 1. lia.
Qed.

Lemma closeHunk_fine (lines : list bytes) (ls : list Z) (i : Z) (c : byte)
  (d n : Z) (h : ChangeHunk) (lc rc : bytes) :
  closeHunk lines ls i c d n = Some h ->
  fine h = Some (lc, rc) ->
  strippedContent lines (hunkDel h) (hunkIns h) = Some lc
  /\ strippedContent lines (hunkIns h) (hunkLine h) = Some rc.
Proof.
  unfold closeHunk.
  set (d' := if d =? -1 then n else d).
  set (n' := if d =? -1 then n else if n =? -1 then i else n).
  destruct (index ls d') as [bl |]; [| discriminate].
  destruct (index ls n') as [el |]; [| discriminate].
  destruct (index ls i) as [er |]; [| discriminate].
  destruct (negb (Byte.eqb AT c)).
  - destruct (strippedContent lines d' n') as [sl |] eqn:E1; [| discriminate].
    destruct (strippedContent lines n' i) as [sr |] eqn:E2; [| discriminate].
    intros [= <-]. simpl. intros [= <- <-]. auto.
  - intros [= <-]. simpl. discriminate.
Qed.

(** X19: the two texts handed to the fine-grained highlighter line up with
    the source: the text of the addition side is as long as the range of its
    coarse wrapper, and so is the text of the removal side unless an Added
    line precedes the first Removed line, when it is empty. *)
Theorem fine_texts_are_as_long_as_their_ranges :
  forall (src : bytes),
    exists hs,
      segment src = Some hs
      /\ forall h leftContent rightContent,
           In h hs ->
           fine h = Some (leftContent, rightContent) ->
           len rightContent = End_ (coarseRight h) - Start (coarseRight h)
           /\ (hunkDel h <= hunkIns h ->
               len leftContent = End_ (coarseLeft h) - Start (coarseLeft h))
           /\ (hunkIns h < hunkDel h -> leftContent = []).
Proof.
  intros src. destruct (segment_total src) as (hs & Hs & Hall).
  exists hs. split; [exact Hs |]. intros h lc rc Hin Hf.
  rewrite Forall_forall in Hall.
  destruct (Hall h Hin) as (i & line & d & n & _ & _ & _ & _ & Hinv & Hp & Hc).
  destruct (closeHunk_fields _ _ _ _ _ _ _ Hc)
    as (F1 & _ & _ & F4 & F5 & F6 & F7 & _).
  destruct (closeHunk_fine _ _ _ _ _ _ _ _ _ Hc Hf) as [Sl Sr].
  destruct (closeHunk_range _ _ _ _ _ _ Hinv Hp Hc) as (_ & _ & _ & R4 & _).
  unfold coarseLeft, coarseRight. cbn [Start End_].
  unfold strippedContent in Sl, Sr. rewrite <- F1 in F7, R4.
  split; [| split].
  - rewrite F6 in *.
    rewrite (content_loop_len _ _ _ (endOffsetLeft h) (endOffsetRight h)
               _ _ Sr F5); [unfold len; simpl; lia |].
    replace (hunkIns h + Z.of_nat (Z.to_nat (hunkLine h - hunkIns h)))
      with (hunkLine h) by lia.
    exact F7.
  - intros Hle.
    rewrite (content_loop_len _ _ _ (beginOffsetLeft h) (endOffsetLeft h)
               _ _ Sl F4); [unfold len; simpl; lia |].
    replace (hunkDel h + Z.of_nat (Z.to_nat (hunkIns h - hunkDel h)))
      with (hunkIns h) by lia.
    exact F5.
  - intros Hlt.
    replace (Z.to_nat (hunkIns h - hunkDel h)) with 0%nat in Sl by lia.
    simpl in Sl. congruence.
Qed.

(** X20: when the last line of the source starts with ['+'] or ['-'], the
    scan ends with a marker still set and the hunks it has closed out are
    those of the lines before the last: the last run gets no hunk. *)
Theorem unterminated_last_run_gets_no_hunk :
  forall (src : bytes) (pre : list bytes) (c : byte) (t : bytes),
    Split_nl src = pre ++ [c :: t] ->
    c = PLUS \/ c = MINUS ->
    exists d n hs,
      scan src = Some (d, n, hs)
      /\ (d <> -1 \/ n <> -1)
      /\ segment src = Some hs
      /\ Forall (fun h => hunkLine h < len pre) hs.
Proof.
  intros src pre c t Hsplit Hc.
  destruct (scan_ends_pending_after_marked_last_line
              (Split_nl src) pre c t Hsplit Hc)
    as (d0 & n0 & d & n & hs & Hpre & Hfull & Hpend).
  exists d, n, hs. unfold segment, scan. rewrite Hfull.
  repeat (split; [first [reflexivity | assumption] |]).
  destruct (scanLines_inv (Split_nl src) pre [] [c :: t] (-1) (-1) Hsplit
              (markers_ok_unset _ _))
    as (d1 & n1 & hs1 & Hs1 & _ & _).
  change (len (@nil bytes)) with 0 in Hs1. rewrite Hpre in Hs1.
  injection Hs1 as _ _ <-.
  apply Forall_forall. intros h Hin.
  assert (Hfull' : scanLines (Split_nl src) (lineStarts_of (Split_nl src))
                     (Split_nl src) 0 (-1) (-1) = Some (d, n, hs))
    by exact Hfull.
  destruct (scan_total src) as (d2 & n2 & hs2 & Hs2 & _ & Hall).
  unfold scan in Hs2. rewrite Hfull' in Hs2. injection Hs2 as _ _ <-.
  rewrite Forall_forall in Hall.
  destruct (Hall h Hin) as (i & line & dd & nn & Hi & Hline & HP & HM & _ & _ & Hcl).
  destruct (closeHunk_fields _ _ _ _ _ _ _ Hcl) as (F1 & _).
  rewrite F1.
  destruct (Z.lt_ge_cases i (len pre)) as [Hlt | Hge]; [exact Hlt | exfalso].
  assert (Ei : i = len pre).
  { rewrite Hsplit, len_app in Hi. change (len [c :: t]) with 1 in Hi. lia. }
  rewrite Ei, Hsplit in Hline.
  assert (Heq : Some line = Some (c :: t))
    by (rewrite <- Hline; apply index_app_here).
  injection Heq as ->.
  simpl in HP, HM. destruct Hc; congruence.
Qed.

Lemma unterminated_last_run_gets_no_hunk_witness :
  exists d n hs,
    scan (Join_nl [lit " a"; lit "-b"; lit "+c"]) = Some (d, n, hs)
    /\ (d <> -1 \/ n <> -1).
Proof.
  destruct (unterminated_last_run_gets_no_hunk
              (Join_nl [lit " a"; lit "-b"; lit "+c"])
              [lit " a"; lit "-b"] PLUS (lit "c") eq_refl (or_introl eq_refl))
    as (d & n & hs & H1 & H2 & _).
  exists d, n, hs. split; assumption.
Defined.

(** ** The renderer as a whole *)

(** X21: what [RenderNode] appends for a node depends neither on what has
    been written before nor on [entering], and it always continues with
    [GoToNext]; for a node that is neither a heading nor a code block it
    appends nothing. *)
Theorem RenderNode_appends_and_continues :
  forall (Parse : bytes -> option HtmlNode) (Unescape Create : bytes -> bytes)
         (Print : bytes -> option bytes)
         (Annotate_diff : bytes -> option (list Annotation))
         (Fine : bytes -> bytes -> Z * Z -> list Annotation * list Annotation)
         (Sort : list Annotation -> list Annotation)
         (Annotate : bytes -> list Annotation -> option bytes)
         (w : Writer) (node : Node) (entering : bool),
    RenderNode Parse Unescape Create Print Annotate_diff Fine Sort Annotate
      w node entering
    = match RenderNode Parse Unescape Create Print Annotate_diff Fine Sort
              Annotate [] node (negb entering) with
      | Some (out, _) => Some (w ++ out, GoToNext)
      | None => None
      end
    /\ (Type_ node <> Heading -> Type_ node <> CodeBlock ->
        RenderNode Parse Unescape Create Print Annotate_diff Fine Sort
          Annotate w node entering = Some (w, GoToNext)).
Proof.
  intros. split.
  - unfold RenderNode.
    destruct (Type_ node); try (rewrite app_nil_r; reflexivity).
    + rewrite !heading_output. reflexivity.
    + unfold codeblock.
      destruct (highlightCode Print Annotate_diff Fine Sort Annotate
                  (Literal node) (findLang (Info node)))
        as [[hc ok] |]; [| reflexivity].
      destruct (Parent node); [| reflexivity].
      destruct ok; unfold Write; rewrite ?attrEscape_spec_escape;
        rewrite <- ?app_assoc; reflexivity.
  - intros H1 H2. unfold RenderNode.
    destruct (Type_ node); try reflexivity; contradiction.
Qed.

(** X22: an info string without tab or space is never highlighted, whatever
    it names and whatever the highlighters would return: the block is
    written as the escaped source in the plain [pre] and [code] wrapper. *)
Theorem info_without_whitespace_renders_plain :
  forall (Print : bytes -> option bytes)
         (Annotate_diff : bytes -> option (list Annotation))
         (Fine : bytes -> bytes -> Z * Z -> list Annotation * list Annotation)
         (Sort : list Annotation -> list Annotation)
         (Annotate : bytes -> list Annotation -> option bytes)
         (w : Writer) (node : Node) (entering : bool) (p : NodeType),
    Parent node = Some p ->
    no_whitespace (Info node) = true ->
    codeblock Print Annotate_diff Fine Sort Annotate w node entering
    = Some (w ++ lit "<pre><code>" ++ spec_escape (Literal node)
              ++ lit "</code></pre>",
            GoToNext).
Proof.
  intros Print Annotate_diff Fine Sort Annotate w node entering p Hp Hn.
  destruct (findLang_without_whitespace (Info node) Hn) as [E _].
  rewrite (codeblock_output Print Annotate_diff Fine Sort Annotate
             w node entering p [] false Hp).
  - rewrite E. reflexivity.
  - rewrite E. reflexivity.
Qed.

Lemma info_without_whitespace_renders_plain_witness :
  codeblock (fun src => Some (lit "<b>highlighted</b>")) failing_diff_Annotate
    empty_HighlightedDiffFunc identity_Sort failing_Annotate []
    (codeBlockNode (lit "Go") (lit "x := 1 < 2")) true
  = Some (lit "<pre><code>x := 1 &lt; 2</code></pre>", GoToNext).
Proof.
  exact (info_without_whitespace_renders_plain
           (fun src => Some (lit "<b>highlighted</b>")) failing_diff_Annotate
           empty_HighlightedDiffFunc identity_Sort failing_Annotate []
           (codeBlockNode (lit "Go") (lit "x := 1 < 2")) true Document
           eq_refl eq_refl).
Defined.

(** X23: for a non-empty tag [codeblock] writes the opening [div] of class
    [highlight highlight-{lang}], right after it the body (the highlighted
    code, or the escaped source when [highlightCode] does not return [ok]),
    and then the closing [pre] and [div] tags: no opening [pre] tag is
    written. *)
Theorem tagged_block_is_div_body_close :
  forall (Print : bytes -> option bytes)
         (Annotate_diff : bytes -> option (list Annotation))
         (Fine : bytes -> bytes -> Z * Z -> list Annotation * list Annotation)
         (Sort : list Annotation -> list Annotation)
         (Annotate : bytes -> list Annotation -> option bytes)
         (w : Writer) (node : Node) (entering : bool) (p : NodeType),
    Parent node = Some p ->
    findLang (Info node) <> [] ->
    exists hc ok,
      highlightCode Print Annotate_diff Fine Sort Annotate (Literal node)
        (findLang (Info node)) = Some (hc, ok)
      /\ codeblock Print Annotate_diff Fine Sort Annotate w node entering
         = Some (w ++ litq "<div class='highlight highlight-"
                   ++ findLang (Info node) ++ litq "'>"
                   ++ (if ok then hc else spec_escape (Literal node))
                   ++ lit "</pre></div>",
                 GoToNext).
Proof.
  intros Print Annotate_diff Fine Sort Annotate w node entering p Hp Hne.
  destruct (highlightCode_total Print Annotate_diff Fine Sort Annotate
              (Literal node) (findLang (Info node))) as (hc & ok & Hh).
  exists hc, ok. split; [exact Hh |].
  rewrite (codeblock_output Print Annotate_diff Fine Sort Annotate
             w node entering p hc ok Hp Hh).
  destruct (wrapper_of_nonempty_tag _ Hne) as [-> ->].
  rewrite <- !app_assoc. reflexivity.
Qed.

Lemma tagged_block_is_div_body_close_witness :
  codeblock (fun src => Some (lit "<b>x</b>")) failing_diff_Annotate
    empty_HighlightedDiffFunc identity_Sort failing_Annotate []
    (codeBlockNode (lit "Go ") (lit "x")) true
  = Some (litq "<div class='highlight highlight-Go'><b>x</b></pre></div>",
          GoToNext).
Proof.
  destruct (tagged_block_is_div_body_close
              (fun src => Some (lit "<b>x</b>")) failing_diff_Annotate
              empty_HighlightedDiffFunc identity_Sort failing_Annotate []
              (codeBlockNode (lit "Go ") (lit "x")) true Document
              eq_refl ltac:(discriminate))
    as (hc & ok & Hh & Hc).
  injection Hh as <- <-. exact Hc.
Defined.

(** ** Task list items *)

Lemma slice_to_end {A} (pre rest : list A) :
  slice (pre ++ rest) (len pre) (len (pre ++ rest)) = rest.
Proof.
  unfold slice, len. rewrite Nat2Z.id, skipn_app, Nat.sub_diag.
  rewrite skipn_all. simpl. apply firstn_all2.
  rewrite length_app. lia.
Qed.

Lemma taskListText_not_bracket (text : bytes) :
  firstChar text <> x5b -> taskListText text = text.
Proof.
  intros H. unfold taskListText.
  destruct text as [| c t]; [reflexivity |].
  simpl in H. assert (E : Byte.eqb c x5b = false) by (apply eqb_neq; exact H).
  cbn [HasPrefix lit list_byte_of_string]. simpl.
  rewrite E. reflexivity.
Qed.

Lemma taskListText_idempotent (text : bytes) :
  taskListText (taskListText text) = taskListText text.
Proof.
  destruct (HasPrefix text (lit "[ ] ")) eqn:E1.
  - assert (E : taskListText text
                = litq "<input type='checkbox' disabled=''>"
                  ++ slice text 3 (len text))
      by (unfold taskListText; rewrite E1; reflexivity).
    rewrite E. reflexivity.
  - destruct (HasPrefix text (lit "[x] ") || HasPrefix text (lit "[X] "))
      eqn:E2.
    + assert (E : taskListText text
                  = litq "<input type='checkbox' checked='' disabled=''>"
                    ++ slice text 3 (len text))
        by (unfold taskListText; rewrite E1, E2; reflexivity).
      rewrite E. reflexivity.
    + assert (E : taskListText text = text)
        by (unfold taskListText; rewrite E1, E2; reflexivity).
      rewrite E. exact E.
Qed.

(** X24: [ListItem] hands the item text on with a leading task marker
    turned into a checkbox: ["[ ] "] into a disabled one, ["[x] "] and
    ["[X] "] alike into a checked disabled one, the space after the bracket
    and the rest of the text kept; a text that does not start with ['[']
    is handed on unchanged, and so is a text already rewritten. *)
Theorem ListItem_rewrites_task_marker :
  forall (R : bytes -> bytes -> Z -> bytes) (out text rest : bytes)
         (flags : Z),
    ListItem R out (lit "[ ] " ++ rest) flags
    = R out (litq "<input type='checkbox' disabled=''>" ++ SPACE :: rest)
        flags
    /\ ListItem R out (lit "[x] " ++ rest) flags
       = R out (litq "<input type='checkbox' checked='' disabled=''>"
                ++ SPACE :: rest) flags
    /\ ListItem R out (lit "[X] " ++ rest) flags
       = ListItem R out (lit "[x] " ++ rest) flags
    /\ (firstChar text <> x5b -> ListItem R out text flags = R out text flags)
    /\ ListItem R out (taskListText text) flags = ListItem R out text flags.
Proof.
  intros R out text rest flags. unfold ListItem.
  assert (S3 : forall a b c : byte,
             slice (a :: b :: c :: SPACE :: rest) 3
               (len (a :: b :: c :: SPACE :: rest)) = SPACE :: rest).
  { intros a b c.
    exact (slice_to_end [a; b; c] (SPACE :: rest)). }
  assert (E1 : taskListText (lit "[ ] " ++ rest)
               = litq "<input type='checkbox' disabled=''>" ++ SPACE :: rest).
  { unfold taskListText.
    change (HasPrefix (lit "[ ] " ++ rest) (lit "[ ] ")) with true.
    cbv iota. f_equal. apply S3. }
  assert (E2 : taskListText (lit "[x] " ++ rest)
               = litq "<input type='checkbox' checked='' disabled=''>"
                 ++ SPACE :: rest).
  { unfold taskListText.
    change (HasPrefix (lit "[x] " ++ rest) (lit "[ ] ")) with false.
    change (HasPrefix (lit "[x] " ++ rest) (lit "[x] ")) with true.
    cbv iota. simpl orb. cbv iota. f_equal. apply S3. }
  assert (E3 : taskListText (lit "[X] " ++ rest)
               = litq "<input type='checkbox' checked='' disabled=''>"
                 ++ SPACE :: rest).
  { unfold taskListText.
    change (HasPrefix (lit "[X] " ++ rest) (lit "[ ] ")) with false.
    change (HasPrefix (lit "[X] " ++ rest) (lit "[x] ")) with false.
    change (HasPrefix (lit "[X] " ++ rest) (lit "[X] ")) with true.
    cbv iota. simpl orb. cbv iota. f_equal. apply S3. }
  rewrite E1, E2, E3.
  repeat (split; [reflexivity |]). split.
  - intros H. rewrite taskListText_not_bracket by exact H. reflexivity.
  - f_equal. apply taskListText_idempotent.
Qed.
